(** * biscuit: command registry, palette formatting and the AI view

    A shallow embedding of [src/biscuit/settings/settings.py] and
    [src/biscuit/views/ai/ai.py].

    - [Fmt] models the builtin [str.format] on the fragment the palette
      templates use, and [Formattable.format] on top of it.
    - [Registry] models [Settings.commands], [Settings._actionset] and the
      operations that rebuild them.
    - [Secrets] models the [secrets] table and the two SQL statements the
      AI view issues against it.
    - [AIView] models the [AI] drawer view as explicit state passing over a
      record, with a heap of [Chat] widgets so that a dangling reference to
      a destroyed widget is representable. *)

From Stdlib Require Import Ascii String.
From stdpp Require Import base strings list gmap.

(** ** Python truthiness of the values that occur in the two files *)

Definition truthy_str (s : string) : bool :=
  match s with
  | EmptyString => false
  | String _ _ => true
  end.

(** [None] and [""] are both falsy. *)
Definition truthy_opt (o : option string) : bool :=
  match o with
  | None => false
  | Some s => truthy_str s
  end.

(** ** [str.format] and [Formattable] *)

Module Fmt.

(** Outcome of [template.format(arg)] with one positional [str] argument.
    [Unmodelled] marks templates that use a replacement field outside the
    fragment below (conversions, format specs, attribute or item access,
    keyword names, nested fields); nothing is claimed about them. *)
Inductive result :=
| Formatted (s : string)
| Raises
| Unmodelled.

(** Field numbering state of the formatter: a template may use [{}] or
    [{0}] but not both. *)
Inductive numbering :=
| Unset
| Auto (next : nat)
| Manual.

Inductive mode :=
| Text
| SawOpen
| InField (name : string)
| SawClose.

Definition lbrace : ascii := "{"%char.
Definition rbrace : ascii := "}"%char.

Definition is_digit (c : ascii) : bool :=
  let n := nat_of_ascii c in (48 <=? n)%nat && (n <=? 57)%nat.

Fixpoint all_digits (s : string) : bool :=
  match s with
  | EmptyString => true
  | String c r => is_digit c && all_digits r
  end.

Fixpoint all_zeros (s : string) : bool :=
  match s with
  | EmptyString => true
  | String c r => Ascii.eqb c "0"%char && all_zeros r
  end.

Definition snoc (s : string) (c : ascii) : string := s +:+ String c EmptyString.

(** A completed replacement field [{name}]: what it appends to the output
    and the numbering state after it, [inr] when the call stops there. *)
Definition field (name arg : string) (nb : numbering)
  : (string * numbering) + result :=
  match name with
  | EmptyString =>
      match nb with
      | Manual => inr Raises
      | Unset => inl (arg, Auto 1)
      | Auto 0 => inl (arg, Auto 1)
      | Auto (S _) => inr Raises
      end
  | _ =>
      if all_digits name then
        match nb with
        | Auto _ => inr Raises
        | _ => if all_zeros name then inl (arg, Manual) else inr Raises
        end
      else inr Unmodelled
  end.

(** One pass over the template, left to right, as the builtin does. *)
Fixpoint scan (t : string) (arg : string) (m : mode) (nb : numbering)
         (out : string) : result :=
  match t with
  | EmptyString =>
      match m with
      | Text => Formatted out
      | _ => Raises
      end
  | String c r =>
      match m with
      | Text =>
          if Ascii.eqb c lbrace then scan r arg SawOpen nb out
          else if Ascii.eqb c rbrace then scan r arg SawClose nb out
          else scan r arg Text nb (snoc out c)
      | SawOpen =>
          if Ascii.eqb c lbrace then scan r arg Text nb (snoc out lbrace)
          else if Ascii.eqb c rbrace then
            match field EmptyString arg nb with
            | inl (piece, nb') => scan r arg Text nb' (out +:+ piece)
            | inr stop => stop
            end
          else scan r arg (InField (String c EmptyString)) nb out
      | InField name =>
          if Ascii.eqb c rbrace then
            match field name arg nb with
            | inl (piece, nb') => scan r arg Text nb' (out +:+ piece)
            | inr stop => stop
            end
          else if Ascii.eqb c lbrace then Unmodelled
          else scan r arg (InField (snoc name c)) nb out
      | SawClose =>
          if Ascii.eqb c rbrace then scan r arg Text nb (snoc out rbrace)
          else Raises
      end
  end.

(** [str.format(template, arg)] *)
Definition str_format (template arg : string) : result :=
  scan template arg Text Unset EmptyString.

(** [URL = re.compile(r"^(?:http)s?:")], used through [URL.match]: the
    literal [http], an optional [s], then a colon, anchored at the start
    of the term.  No flag is passed, so the match is case sensitive. *)
Fixpoint strip_prefix (p s : string) : option string :=
  match p with
  | EmptyString => Some s
  | String a p' =>
      match s with
      | EmptyString => None
      | String b s' => if Ascii.eqb a b then strip_prefix p' s' else None
      end
  end.

Definition URL_match (term : string) : bool :=
  match strip_prefix "http" term with
  | None => false
  | Some rest => String.prefix "s:" rest || String.prefix ":" rest
  end.

Definition default : string := "https://github.com/".

(** [Formattable.format(self, term)] *)
Definition format (self term : string) : result :=
  if negb (truthy_str term) || URL_match term then str_format self term
  else str_format self (default +:+ term).

(** The rule in the words of the specification: a term is taken verbatim
    when it starts with [http://] or [https://], the base is prepended
    otherwise, and the empty term gives back the template itself. *)
Definition spec_scheme_match (term : string) : bool :=
  String.prefix "http://" term || String.prefix "https://" term.

Definition spec_format (self term : string) : result :=
  if spec_scheme_match term then str_format self term
  else if negb (truthy_str term) then Formatted self
  else str_format self (default +:+ term).

(** The value [Formattable.format] hands to [str.format]. *)
Definition target (term : string) : string :=
  if negb (truthy_str term) || URL_match term then term else default +:+ term.

(** Templates and template parts without [{] and [}]. *)
Definition plain_char (c : ascii) : bool :=
  negb (Ascii.eqb c lbrace) && negb (Ascii.eqb c rbrace).

Fixpoint brace_free (s : string) : bool :=
  match s with
  | EmptyString => true
  | String c r => plain_char c && brace_free r
  end.

(** The template of the pinned clone command built in [late_setup]:
    [Formattable("clone {}")]. *)
Definition clone_template : string := "clone {}".

End Fmt.

(** ** The command registry of [Settings] *)

Module Registry.

(** Callables are compared by identity; [InvokeMethod m] is the closure
    [lambda _, method=method: method(self.base.commands)] that
    [late_setup] builds around an extracted method. *)
Inductive callback :=
| Callable (id : nat)
| InvokeMethod (method : nat).

Abbreviation command := (string * callback)%type.

(** Modelled from the spec: [ActionSet] is defined in [biscuit.common],
    outside the two files; it is constructed from
    [(title, prefix, items, pinned=[])] and is a value object. *)
Record ActionSet := mkActionSet {
  title : string;
  prefix : string;
  items : list command;
  pinned : list command
}.

(** The helpers imported from [biscuit.common] read the application
    object [self.base]; [App] is the state of that object at the moment
    of a call. *)
Class Common (App : Type) := {
  get_games : App → list command;
  extract_commands : App → list (string * nat);
  formalize_command : string → string
}.

Record Settings := mkSettings {
  commands : list command;
  _actionset : option ActionSet   (* [None]: attribute not yet assigned *)
}.

(** The part of [Settings.__init__] that concerns the registry. *)
Definition init : Settings := {| commands := []; _actionset := None |}.

Section WithCommon.
Context {App : Type} {common : Common App}.

Definition generate_actionset (base : App) (s : Settings) : Settings :=
  {| commands := commands s;
     _actionset := Some (mkActionSet "Show and run commands" ">"
                                     (commands s ++ get_games base) []) |}.

Definition register_command (command : string) (cb : callback)
           (base : App) (s : Settings) : Settings :=
  generate_actionset base
    {| commands := commands s ++ [(command, cb)];
       _actionset := _actionset s |}.

Definition late_setup (base : App) (s : Settings) : Settings :=
  generate_actionset base
    {| commands := map (λ nm, (formalize_command nm.1, InvokeMethod nm.2))
                       (extract_commands base);
       _actionset := _actionset s |}.

(** The [actionset] property; [None] stands for the [AttributeError] of
    reading [_actionset] before the first compilation. *)
Definition actionset (s : Settings) : option ActionSet := _actionset s.

(** The registry together with the application object it points to.
    The application changes on its own between calls. *)
Inductive op :=
| Register (label : string) (cb : callback)
| GenerateActionset
| LateSetup
| ExternalChange (base' : App).

Definition step (o : op) (w : Settings * App) : Settings * App :=
  match o with
  | Register label cb => (register_command label cb w.2 w.1, w.2)
  | GenerateActionset => (generate_actionset w.2 w.1, w.2)
  | LateSetup => (late_setup w.2 w.1, w.2)
  | ExternalChange base' => (w.1, base')
  end.

Definition run (os : list op) (w : Settings * App) : Settings * App :=
  foldl (λ w o, step o w) w os.

(** Operations that leave the registry alone. *)
Definition is_external (o : op) : bool :=
  match o with
  | ExternalChange _ => true
  | _ => false
  end.

Definition is_late_setup (o : op) : bool :=
  match o with
  | LateSetup => true
  | _ => false
  end.

(** The commands handed to [register_command] in a series of calls, in
    order of registration, and the action set the specification expects the
    accessor to return after them. *)
Definition registered (os : list op) : list command :=
  omap (λ o, match o with
             | Register label cb => Some (label, cb)
             | _ => None
             end) os.

Definition spec_actionset (os : list op) (base : App) : ActionSet :=
  mkActionSet "Show and run commands" ">" (registered os ++ get_games base) [].

(** A series of [register_command] calls, each with the application as it
    is at that call. *)
Definition register_all (regs : list (command * App)) (s : Settings) : Settings :=
  foldl (λ s r, register_command r.1.1 r.1.2 r.2 s) s regs.

(** What the palette obtains from the provider function
    [lambda: self.actionset]. *)
Definition palette_fetch (w : Settings * App) : option ActionSet :=
  actionset w.1.

(** The reading of the specification in which the extras are computed
    when the consumer asks. *)
Definition spec_fetch (w : Settings * App) : option ActionSet :=
  Some (mkActionSet "Show and run commands" ">"
                    (commands w.1 ++ get_games w.2) []).

End WithCommon.

(** A small application object for concrete runs: it carries the games and
    the extracted commands directly. *)
Record toy_app := { toy_games : list command; toy_extracted : list (string * nat) }.

Definition toy_common : Common toy_app :=
  {| get_games := toy_games;
     extract_commands := toy_extracted;
     formalize_command := λ name, name |}.

End Registry.

(** ** The [secrets] table *)

Module Secrets.

(** [CREATE TABLE secrets (key TEXT PRIMARY KEY NOT NULL, value TEXT)] *)
Abbreviation row := (string * option string)%type.
Abbreviation table := (list row).

(** A connection: what has been committed to the file and what the
    connection currently sees (committed rows plus its open transaction). *)
Record database := mkDb {
  durable : table;
  working : table
}.

(** [sqlite3.connect] followed by [CREATE TABLE IF NOT EXISTS]; the
    argument is the table found in the file, if any. *)
Definition open (file : option table) : database :=
  let t := default [] file in {| durable := t; working := t |}.

Definition has_key (k : string) (r : row) : bool := String.eqb r.1 k.

(** [INSERT OR REPLACE INTO secrets (key, value) VALUES (k, v)]: rows in
    conflict on the primary key are deleted, then the row is inserted. *)
Definition insert_or_replace (k v : string) (t : table) : table :=
  filter (λ r, has_key k r = false) t ++ [(k, Some v)].

(** [SELECT value FROM secrets WHERE key = k] *)
Definition select_value (k : string) (t : table) : list (option string) :=
  map snd (filter (λ r, has_key k r = true) t).

Definition execute_insert_or_replace (k v : string) (d : database) : database :=
  {| durable := durable d; working := insert_or_replace k v (working d) |}.

Definition commit (d : database) : database :=
  {| durable := working d; working := working d |}.

(** The write of [add_chat]: [cursor.execute(INSERT OR REPLACE ...)] then
    [db.commit()]. *)
Definition put (k v : string) (d : database) : database :=
  commit (execute_insert_or_replace k v d).

(** The read of [__init__]: [cursor.execute(SELECT ...)] then
    [cursor.fetchone()]; [None] when no row matches. *)
Definition get (k : string) (d : database) : option (option string) :=
  head (select_value k (working d)).

(** The rows of a table stored under keys other than [k]. *)
Definition other_rows (k : string) (t : table) : table :=
  filter (λ r, has_key k r = false) t.

Definition rows_with (k : string) (t : table) : nat :=
  length (filter (λ r, has_key k r = true) t).

Definition GEMINI_API_KEY : string := "GEMINI_API_KEY".

(** A series of writes, oldest first. *)
Definition put_all (writes : list (string * string)) (d : database) : database :=
  foldl (λ d kv, put kv.1 kv.2 d) d writes.

End Secrets.

(** ** The AI drawer view *)

Module AIView.

(** [Chat] widgets are objects with identity; [chat_id] is the address of
    one in [heap]. *)
Abbreviation chat_id := nat.

(** A provider is registered as a class; [api_providers[name](api_key)]
    instantiates it with the credential. *)
Abbreviation model_class := string.

Record model_instance := mkModel {
  cls : model_class;
  key : string
}.

(** The only attribute of a [Chat] that the view sets: its model. *)
Record chat_obj := mkChat {
  model : option model_instance
}.

Inductive item :=
| PlaceholderItem
| ChatItem (c : chat_id).

(** Calls that leave the view, in the order they are issued. *)
Inductive event :=
| AddItem (i : item)
| RemoveItem (i : item)
| Construct (c : chat_id)
| Destroy (c : chat_id)
| SetModel (c : chat_id) (m : model_instance)
| PlaceholderKeySet (k : string)
| Reset (c : chat_id)
| AttachFile (c : chat_id) (files : list string)
| DropdownAdd (provider : string).

Inductive exn :=
| KeyError (k : string)
| Propagated.

Inductive outcome :=
| Returned
| Raised (e : exn).

(** What [self.chat.new_chat()] does when called; it is code of the [Chat]
    widget. [except Exception] lets a [BaseException] through. *)
Inductive reset_outcome :=
| ResetReturns
| ResetRaisesException
| ResetRaisesBaseException.

Record AI := mkAI {
  chat : option chat_id;
  api_key : string;
  api_providers : gmap string model_class;
  current_provider : string;
  db : Secrets.database;
  heap : list chat_obj;
  trace : list event          (* most recent first *)
}.

Definition set_chat (c : option chat_id) (s : AI) : AI :=
  mkAI c (api_key s) (api_providers s) (current_provider s) (db s) (heap s) (trace s).
Definition set_api_key (k : string) (s : AI) : AI :=
  mkAI (chat s) k (api_providers s) (current_provider s) (db s) (heap s) (trace s).
Definition set_api_providers (m : gmap string model_class) (s : AI) : AI :=
  mkAI (chat s) (api_key s) m (current_provider s) (db s) (heap s) (trace s).
Definition set_current (p : string) (s : AI) : AI :=
  mkAI (chat s) (api_key s) (api_providers s) p (db s) (heap s) (trace s).
Definition set_db (d : Secrets.database) (s : AI) : AI :=
  mkAI (chat s) (api_key s) (api_providers s) (current_provider s) d (heap s) (trace s).
Definition set_heap (h : list chat_obj) (s : AI) : AI :=
  mkAI (chat s) (api_key s) (api_providers s) (current_provider s) (db s) h (trace s).
Definition emit (e : event) (s : AI) : AI :=
  mkAI (chat s) (api_key s) (api_providers s) (current_provider s) (db s) (heap s)
       (e :: trace s).

(** Calls on collaborators. *)
Definition add_item (i : item) : AI → AI := emit (AddItem i).
Definition remove_item (i : item) : AI → AI := emit (RemoveItem i).
Definition destroy (c : chat_id) : AI → AI := emit (Destroy c).

(** [Chat(self)]: a new object at a fresh address. *)
Definition construct (s : AI) : chat_id * AI :=
  let c := length (heap s) in
  (c, emit (Construct c) (set_heap (heap s ++ [mkChat None]) s)).

Definition set_model (c : chat_id) (m : model_instance) (s : AI) : AI :=
  emit (SetModel c m) (set_heap (<[c := mkChat (Some m)]> (heap s)) s).

(** [add_placeholder].  A widget is truthy, so [if self.chat] tests the
    reference against [None]; the reference is kept after [destroy]. *)
Definition add_placeholder (s : AI) : AI * outcome :=
  let s := add_item PlaceholderItem s in
  let s := if truthy_str (api_key s) then emit (PlaceholderKeySet (api_key s)) s else s in
  let s := match chat s with
           | Some c => destroy c (remove_item (ChatItem c) s)
           | None => s
           end in
  (s, Returned).

(** [add_chat(api_key=None)] *)
Definition add_chat (k : option string) (s : AI) : AI * outcome :=
  let s := match k with
           | Some k' => if truthy_str k' then set_api_key k' s else s
           | None => s
           end in
  if negb (truthy_str (api_key s)) then add_placeholder s
  else
    let s := set_db (Secrets.put Secrets.GEMINI_API_KEY (api_key s) (db s)) s in
    let s := match chat s with
             | Some c => set_chat None (destroy c (remove_item (ChatItem c) s))
             | None => s
             end in
    let (c, s) := construct s in
    let s := set_chat (Some c) s in
    (* [get_model_instance] is evaluated before [set_model] is called *)
    match api_providers s !! current_provider s with
    | None => (s, Raised (KeyError (current_provider s)))
    | Some class =>
        let s := set_model c (mkModel class (api_key s)) s in
        let s := add_item (ChatItem c) s in
        let s := remove_item PlaceholderItem s in
        (s, Returned)
    end.

(** [__init__]: the argument is the content of [secrets.db] on disk. *)
Definition init (file : option Secrets.table) : AI * outcome :=
  let d := Secrets.open file in
  let s := {| chat := None;
              api_key := "";
              api_providers := {[ "Gemini 1.5 Flash" := "Gemini1p5Flash" ]};
              current_provider := "Gemini 1.5 Flash";
              db := d;
              heap := [];
              trace := [] |} in
  match Secrets.get Secrets.GEMINI_API_KEY d with
  | Some v => add_chat v s
  | None => add_placeholder s
  end.

Definition register_provider (provider : string) (m : model_class) (s : AI)
  : AI * outcome :=
  (emit (DropdownAdd provider)
        (set_api_providers (<[provider := m]> (api_providers s)) s),
   Returned).

Definition set_current_provider (provider : string) (s : AI) : AI * outcome :=
  if String.eqb provider (current_provider s) then (s, Returned)
  else add_chat None (set_current provider s).

Definition attach_file (files : list string) (s : AI) : AI * outcome :=
  match chat s with
  | Some c => (emit (AttachFile c files) s, Returned)
  | None => (s, Returned)
  end.

Definition new_chat (r : reset_outcome) (s : AI) : AI * outcome :=
  match chat s with
  | Some c =>
      let s := emit (Reset c) s in
      match r with
      | ResetReturns => (s, Returned)
      | ResetRaisesException => add_chat None s
      | ResetRaisesBaseException => (s, Raised Propagated)
      end
  | None => add_chat None s
  end.

(** Everything a caller (menu, dropdown, placeholder form, toolbar) can do
    to the view. *)
Inductive op :=
| RegisterProvider (provider : string) (m : model_class)
| SetCurrentProvider (provider : string)
| AttachFiles (files : list string)
| AddPlaceholder
| AddChat (k : option string)
| NewChat (r : reset_outcome).

Definition step (o : op) (s : AI) : AI * outcome :=
  match o with
  | RegisterProvider p m => register_provider p m s
  | SetCurrentProvider p => set_current_provider p s
  | AttachFiles fs => attach_file fs s
  | AddPlaceholder => add_placeholder s
  | AddChat k => add_chat k s
  | NewChat r => new_chat r s
  end.

(** States the view can be in: after construction and after any number of
    calls, whether they returned or raised. *)
Inductive reachable : AI → Prop :=
| reach_init file : reachable (init file).1
| reach_step o s : reachable s → reachable (step o s).1.

(** Widgets that have been constructed and not destroyed, read off a
    trace. *)
Fixpoint live_after (t : list event) : list chat_id :=
  match t with
  | [] => []
  | Construct c :: t' => c :: live_after t'
  | Destroy c :: t' => filter (λ c', c' ≠ c) (live_after t')
  | _ :: t' => live_after t'
  end.

(** Every [Construct] in the trace happened while no widget was alive. *)
Fixpoint teardown_first (t : list event) : bool :=
  match t with
  | [] => true
  | Construct _ :: t' =>
      match live_after t' with
      | [] => teardown_first t'
      | _ => false
      end
  | _ :: t' => teardown_first t'
  end.

(** Addresses of the widgets constructed in a trace, oldest first. *)
Fixpoint constructed (t : list event) : list chat_id :=
  match t with
  | [] => []
  | Construct c :: t' => constructed t' ++ [c]
  | _ :: t' => constructed t'
  end.

(** How often a widget was destroyed in a trace. *)
Fixpoint destroyed_times (c : chat_id) (t : list event) : nat :=
  match t with
  | [] => 0
  | Destroy c' :: t' => (if bool_decide (c' = c) then 1 else 0) + destroyed_times c t'
  | _ :: t' => destroyed_times c t'
  end.

(** A series of calls; a call that raises leaves the view as it is at that
    point and the next call goes on from there. *)
Definition run (os : list op) (s : AI) : AI :=
  foldl (λ s o, (step o s).1) s os.

(** The controller states of the specification, read off the view. *)
Inductive view_state :=
| Placeholder
| Active (widget : chat_id) (backend : option model_instance).

Definition state_of (s : AI) : view_state :=
  match chat s with
  | Some c =>
      if bool_decide (c ∈ live_after (trace s))
      then Active c (heap s !! c ≫= model)
      else Placeholder
  | None => Placeholder
  end.

(** What holds of the view in every state it can reach: at most one widget
    is alive and it is the one [self.chat] refers to; widgets were only
    constructed while none was alive; a chat reference implies a credential
    and points into the heap. *)
Definition inv (s : AI) : Prop :=
  (live_after (trace s) = [] ∨ ∃ c, live_after (trace s) = [c] ∧ chat s = Some c)
  ∧ teardown_first (trace s) = true
  ∧ (∀ c, chat s = Some c → api_key s ≠ "" ∧ c < length (heap s)).

End AIView.

(** * Properties *)

(** ** Truthiness *)

Lemma truthy_str_false (s : string) : truthy_str s = false ↔ s = EmptyString.
Proof. destruct s; simpl; split; congruence. Qed.

Lemma truthy_str_true (s : string) : truthy_str s = true ↔ s ≠ EmptyString.
Proof. destruct s; simpl; split; congruence. Qed.

Lemma truthy_str_eqb (s : string) : negb (truthy_str s) = String.eqb s "".
Proof. by destruct s. Qed.

(** ** Formatting *)

Lemma ascii_dec_eqb {A} (a b : ascii) (x y : A) :
  (if ascii_dec a b then x else y) = (if Ascii.eqb a b then x else y).
Proof.
  destruct (ascii_dec a b) as [->|Hne].
  - by rewrite Ascii.eqb_refl.
  - destruct (Ascii.eqb_spec a b); congruence.
Qed.

(** Matching a concatenated literal is matching its first part and then its
    second part on what is left. *)
Lemma prefix_strip (p q : string) :
  ∀ s, String.prefix (p +:+ q) s =
       match Fmt.strip_prefix p s with
       | Some rest => String.prefix q rest
       | None => false
       end.
Proof.
  induction p as [|a p IH]; intros s; simpl.
  - by destruct s, q.
  - destruct s as [|b s]; simpl; [done|].
    rewrite ascii_dec_eqb. destruct (Ascii.eqb a b); [apply IH | done].
Qed.

Lemma URL_match_prefix (term : string) :
  Fmt.URL_match term = String.prefix "http:" term || String.prefix "https:" term.
Proof.
  unfold Fmt.URL_match.
  change "http:" with ("http" +:+ ":"). change "https:" with ("http" +:+ "s:").
  rewrite !prefix_strip.
  destruct (Fmt.strip_prefix "http" term); [apply orb_comm | done].
Qed.

(** C2 as the code has it: the term is substituted as it is when it is empty
    or starts with [http:] or [https:] (case sensitive, no slashes needed),
    and behind [https://github.com/] otherwise.  With the template [{}] this
    gives the three values of the specification, the empty term giving the
    empty string. *)
Theorem format_rule :
  (∀ self term,
      Fmt.format self term =
      Fmt.str_format self
        (if String.eqb term "" || String.prefix "http:" term || String.prefix "https:" term
         then term else "https://github.com/" +:+ term))
  ∧ Fmt.format "{}" "octocat/Hello-World"
    = Fmt.Formatted "https://github.com/octocat/Hello-World"
  ∧ Fmt.format "{}" "https://example.com/x" = Fmt.Formatted "https://example.com/x"
  ∧ Fmt.format "{}" "" = Fmt.Formatted ""
  ∧ Fmt.format "{}" "HTTP://example.com/x"
    = Fmt.Formatted "https://github.com/HTTP://example.com/x"
  ∧ Fmt.format "clone {}" "octocat/Hello-World"
    = Fmt.Formatted "clone https://github.com/octocat/Hello-World".
Proof.
  split; [|repeat split; reflexivity].
  intros self term. unfold Fmt.format.
  rewrite URL_match_prefix, truthy_str_eqb, orb_assoc.
  by destruct (_ || _).
Qed.

(** C2 as the specification words it fails on the code: [http:x] has no
    [//] yet is taken as it is, and the empty term is substituted into the
    template instead of leaving it untouched. *)
Lemma format_rule_spec_fails :
  Fmt.format "{}" "http:x" = Fmt.Formatted "http:x"
  ∧ Fmt.spec_format "{}" "http:x" = Fmt.Formatted "https://github.com/http:x"
  ∧ Fmt.format "clone {}" "" = Fmt.Formatted "clone "
  ∧ Fmt.spec_format "clone {}" "" = Fmt.Formatted "clone {}"
  ∧ ¬ (∀ self term, Fmt.format self term = Fmt.spec_format self term).
Proof.
  repeat split; try reflexivity.
  intros Heq. specialize (Heq "{}" "http:x"). vm_compute in Heq. discriminate.
Qed.

(** ** The command registry *)

Section RegistryFacts.
Context {App : Type} {common : Registry.Common App}.
Import Registry.

Lemma commands_generate (base : App) (s : Settings) :
  commands (generate_actionset base s) = commands s.
Proof. reflexivity. Qed.

Lemma commands_register label cb (base : App) (s : Settings) :
  commands (register_command label cb base s) = commands s ++ [(label, cb)].
Proof. reflexivity. Qed.

Lemma commands_register_all (regs : list (command * App)) :
  ∀ s, commands (register_all regs s) = commands s ++ map fst regs.
Proof.
  induction regs as [|[[l cb] b] regs IH]; intros s.
  - simpl. by rewrite app_nil_r.
  - change (register_all (((l, cb), b) :: regs) s)
      with (register_all regs (register_command l cb b s)).
    rewrite IH, commands_register. simpl. by rewrite <- app_assoc.
Qed.

(** What [register_command] leaves behind when it returns. *)
Lemma register_command_compiles :
  (∀ (s : Settings) (base : App) label cb,
      let s' := register_command label cb base s in
      commands s' = commands s ++ [(label, cb)]
      ∧ actionset s' =
        Some (mkActionSet "Show and run commands" ">"
                          (commands s' ++ get_games base) []))
  ∧ (∀ (regs : list (command * App)) (base : App) label cb,
        let s' := register_command label cb base (register_all regs init) in
        commands s' = map fst regs ++ [(label, cb)]
        ∧ length (commands s') = S (length regs)
        ∧ actionset s' =
          Some (mkActionSet "Show and run commands" ">"
                            ((map fst regs ++ [(label, cb)]) ++ get_games base) [])).
Proof.
  split.
  - intros s base label cb. by split.
  - intros regs base label cb. cbn zeta.
    assert (Hc : commands (register_command label cb base (register_all regs init))
                 = map fst regs ++ [(label, cb)]).
    { by rewrite commands_register, commands_register_all. }
    split; [exact Hc|]. split.
    + rewrite Hc, length_app, length_map. simpl. lia.
    + unfold actionset, register_command, generate_actionset. simpl.
      by rewrite commands_register_all.
Qed.

Lemma run_last (os : list (@op App)) (o : @op App) (w : Settings * App) :
  run (os ++ [o]) w = step o (run os w).
Proof. unfold run. by rewrite foldl_snoc. Qed.

Lemma registered_last (os : list (@op App)) (o : @op App) :
  registered (os ++ [o])
  = registered os ++ match o with
                     | Register label cb => [(label, cb)]
                     | _ => []
                     end.
Proof. unfold registered. rewrite omap_app. by destruct o. Qed.

Lemma commands_without_late_setup (os : list (@op App)) (app : App) :
  forallb (λ o, negb (is_late_setup o)) os = true →
  commands (run os (init, app)).1 = registered os.
Proof.
  induction os as [|o os IH] using rev_ind; intros Hos; [done|].
  rewrite forallb_app in Hos. apply andb_true_iff in Hos as [Hos Ho].
  rewrite run_last, registered_last.
  destruct o as [label cb| | |base']; simpl in *.
  - by rewrite IH.
  - by rewrite IH, app_nil_r.
  - discriminate.
  - by rewrite IH, app_nil_r.
Qed.

Lemma fetch_after_external (bases : list App) (w : Settings * App) :
  palette_fetch (run (map ExternalChange bases) w) = palette_fetch w.
Proof.
  revert w. induction bases as [|b bases IH]; intros w; [done|].
  change (run (map ExternalChange (b :: bases)) w)
    with (run (map ExternalChange bases) (step (ExternalChange b) w)).
  by rewrite IH.
Qed.

(** C1 as the code has it: when [register_command] returns, the accessor
    holds the action set compiled from the command list as it is then (the
    list before the call and the new command) and the games read during that
    call.  As long as [late_setup] has not run since [__init__], that list
    is the commands registered so far, in order.  The action set is held as
    it is until the next compiling call, whatever the application does in
    between. *)
Theorem register_command_actionset_current :
  (∀ (s : Settings) (base : App) label cb,
      let s' := register_command label cb base s in
      commands s' = commands s ++ [(label, cb)]
      ∧ actionset s' =
        Some (mkActionSet "Show and run commands" ">"
                          (commands s' ++ get_games base) []))
  ∧ (∀ (regs : list (command * App)) (base : App) label cb,
        let s' := register_command label cb base (register_all regs init) in
        commands s' = map fst regs ++ [(label, cb)]
        ∧ length (commands s') = S (length regs)
        ∧ actionset s' =
          Some (mkActionSet "Show and run commands" ">"
                            ((map fst regs ++ [(label, cb)]) ++ get_games base) []))
  ∧ (∀ (os : list (@op App)) (app : App) label cb,
        forallb (λ o, negb (is_late_setup o)) os = true →
        let w := run (os ++ [Register label cb]) (init, app) in
        commands w.1 = registered (os ++ [Register label cb])
        ∧ palette_fetch w = Some (spec_actionset (os ++ [Register label cb]) w.2))
  ∧ (∀ (w : Settings * App) label cb (bases : list App),
        palette_fetch (run (map ExternalChange bases) (step (Register label cb) w))
        = Some (mkActionSet "Show and run commands" ">"
                            ((commands w.1 ++ [(label, cb)]) ++ get_games w.2) [])).
Proof.
  destruct register_command_compiles as [H1 H2].
  split; [exact H1|]. split; [exact H2|]. split.
  - intros os app label cb Hos. cbv zeta.
    assert (Hc : commands (run (os ++ [Register label cb]) (init, app)).1
                 = registered (os ++ [Register label cb])).
    { apply commands_without_late_setup. rewrite forallb_app, Hos. reflexivity. }
    split; [exact Hc|].
    unfold spec_actionset. rewrite <- Hc, run_last. reflexivity.
  - intros w label cb bases. by rewrite fetch_after_external.
Qed.

(** C8 as the code has it: [register_command] extends the command list at
    its end, [generate_actionset] and a change of the application leave it
    alone, and [late_setup] puts the extracted commands in its place. *)
Theorem commands_grow_except_late_setup :
  (∀ (w : Settings * App) label cb,
      commands w.1 `prefix_of` commands (step (Register label cb) w).1)
  ∧ (∀ (w : Settings * App),
        commands (step GenerateActionset w).1 = commands w.1)
  ∧ (∀ (w : Settings * App) base',
        commands (step (ExternalChange base') w).1 = commands w.1)
  ∧ (∀ (regs : list (command * App)) (s : Settings),
        commands s `prefix_of` commands (register_all regs s))
  ∧ (∀ (w : Settings * App),
        commands (step LateSetup w).1
        = map (λ nm, (formalize_command nm.1, InvokeMethod nm.2))
              (extract_commands w.2)).
Proof.
  split; [|split; [|split; [|split]]].
  - intros w label cb. simpl. by apply prefix_app_r.
  - done.
  - done.
  - intros regs s. rewrite commands_register_all. by apply prefix_app_r.
  - intros w. reflexivity.
Qed.

(** C9 as the code has it: the accessor returns the stored action set; a
    change of the application between two fetches changes nothing, and the
    games in it are those read at the last compilation. *)
Theorem actionset_extras_fixed_at_compile :
  (∀ (w : Settings * App) base',
      palette_fetch (step (ExternalChange base') w) = palette_fetch w)
  ∧ (∀ (w : Settings * App) label cb (bases : list App),
        palette_fetch (run (map ExternalChange bases) (step (Register label cb) w))
        = Some (mkActionSet "Show and run commands" ">"
                            ((commands w.1 ++ [(label, cb)]) ++ get_games w.2) []))
  ∧ (∀ (w : Settings * App) (bases : list App),
        palette_fetch (run (map ExternalChange bases) (step GenerateActionset w))
        = Some (mkActionSet "Show and run commands" ">"
                            (commands w.1 ++ get_games w.2) []))
  ∧ (∀ (w : Settings * App) (bases : list App),
        palette_fetch (run (map ExternalChange bases) (step LateSetup w))
        = Some (mkActionSet "Show and run commands" ">"
                            (commands (late_setup w.2 w.1) ++ get_games w.2) [])).
Proof.
  assert (Hext : ∀ (bases : list App) (w : Settings * App),
             palette_fetch (run (map ExternalChange bases) w) = palette_fetch w).
  { induction bases as [|b bases IH]; intros w; [done|].
    change (run (map ExternalChange (b :: bases)) w)
      with (run (map ExternalChange bases) (step (ExternalChange b) w)).
    by rewrite IH. }
  repeat split; intros; by rewrite ?Hext.
Qed.

End RegistryFacts.

#[local] Existing Instance Registry.toy_common.

Lemma register_command_actionset_current_witness :
  let app := {| Registry.toy_games := [("Tetris", Registry.Callable 7)];
                Registry.toy_extracted := [] |} in
  let os := [Registry.Register "hello" (Registry.Callable 0);
             Registry.GenerateActionset;
             Registry.ExternalChange app] in
  let w := Registry.run (os ++ [Registry.Register "world" (Registry.Callable 1)])
                        (Registry.init, app) in
  Registry.commands w.1
  = Registry.registered (os ++ [Registry.Register "world" (Registry.Callable 1)])
  ∧ Registry.palette_fetch w
    = Some (Registry.spec_actionset
              (os ++ [Registry.Register "world" (Registry.Callable 1)]) w.2).
Proof.
  destruct (register_command_actionset_current (App := Registry.toy_app))
    as (_ & _ & H3 & _).
  apply (H3 [Registry.Register "hello" (Registry.Callable 0);
             Registry.GenerateActionset;
             Registry.ExternalChange
               {| Registry.toy_games := [("Tetris", Registry.Callable 7)];
                  Registry.toy_extracted := [] |}]).
  reflexivity.
Defined.

(** C1 as the specification words it fails on the code: "hello" is
    registered, [late_setup] runs, "world" is registered; the accessor then
    holds "world" alone, not the two registered commands.  And once a game
    appears after a registration has returned, the accessor still holds the
    action set without it. *)
Lemma registered_commands_not_all_held :
  let app := {| Registry.toy_games := []; Registry.toy_extracted := [] |} in
  let app' := {| Registry.toy_games := [("Tetris", Registry.Callable 7)];
                 Registry.toy_extracted := [] |} in
  let os := [Registry.Register "hello" (Registry.Callable 0);
             Registry.LateSetup;
             Registry.Register "world" (Registry.Callable 1)] in
  let w := Registry.run os (Registry.init, app) in
  let w' := Registry.step (Registry.ExternalChange app') w in
  Registry.registered os
  = [("hello", Registry.Callable 0); ("world", Registry.Callable 1)]
  ∧ Registry.palette_fetch w
    = Some (Registry.mkActionSet "Show and run commands" ">"
                                 [("world", Registry.Callable 1)] [])
  ∧ Registry.palette_fetch w ≠ Some (Registry.spec_actionset os w.2)
  ∧ Registry.palette_fetch w' ≠ Registry.spec_fetch w'.
Proof.
  repeat split; simpl; discriminate.
Qed.

(** C8 as the specification words it fails on the code: one command is
    registered, then [late_setup] runs on an application with nothing to
    extract, and the list is empty again. *)
Lemma commands_prefix_fails :
  let app := {| Registry.toy_games := []; Registry.toy_extracted := [] |} in
  let w := Registry.step (Registry.Register "hello" (Registry.Callable 0))
                         (Registry.init, app) in
  Registry.commands w.1 = [("hello", Registry.Callable 0)]
  ∧ Registry.commands (Registry.step Registry.LateSetup w).1 = []
  ∧ ¬ (Registry.commands w.1
       `prefix_of` Registry.commands (Registry.step Registry.LateSetup w).1).
Proof.
  repeat split. simpl. intros [k Hk]. discriminate.
Qed.

(** C9 as the specification words it fails on the code: a game appears in
    the application after a registration; the next fetch still returns the
    action set without it, equal to the previous fetch. *)
Lemma actionset_extras_stale :
  let game := ("Tetris", Registry.Callable 7) in
  let app := {| Registry.toy_games := []; Registry.toy_extracted := [] |} in
  let app' := {| Registry.toy_games := [game]; Registry.toy_extracted := [] |} in
  let w := Registry.step (Registry.Register "hello" (Registry.Callable 0))
                         (Registry.init, app) in
  let w' := Registry.step (Registry.ExternalChange app') w in
  Registry.toy_games w.2 ≠ Registry.toy_games w'.2
  ∧ Registry.palette_fetch w' = Registry.palette_fetch w
  ∧ Registry.palette_fetch w' ≠ Registry.spec_fetch w'.
Proof.
  repeat split; simpl; discriminate.
Qed.

(** ** The secrets table *)

Lemma has_key_eq (k k' : string) (v : option string) :
  Secrets.has_key k (k', v) = String.eqb k' k.
Proof. reflexivity. Qed.

Lemma select_insert_or_replace (k v : string) (t : Secrets.table) :
  Secrets.select_value k (Secrets.insert_or_replace k v t) = [Some v].
Proof.
  unfold Secrets.select_value, Secrets.insert_or_replace.
  rewrite filter_app, map_app.
  replace (filter (λ r, Secrets.has_key k r = true)
                  (filter (λ r, Secrets.has_key k r = false) t)) with (@nil Secrets.row).
  - simpl. rewrite filter_cons_True; [done|]. apply String.eqb_refl.
  - symmetry. induction t as [|r t IH]; [done|].
    destruct (Secrets.has_key k r) eqn:Hr.
    + rewrite filter_cons_False; [exact IH | congruence].
    + rewrite filter_cons_True by done.
      rewrite filter_cons_False; [exact IH | congruence].
Qed.

Lemma rows_with_insert_or_replace (k v k' : string) (t : Secrets.table) :
  Secrets.rows_with k' (Secrets.insert_or_replace k v t)
  = if String.eqb k' k then 1 else Secrets.rows_with k' t.
Proof.
  unfold Secrets.rows_with, Secrets.insert_or_replace.
  rewrite filter_app, length_app.
  destruct (String.eqb_spec k' k) as [->|Hne].
  - rewrite filter_cons_True by apply String.eqb_refl. simpl.
    replace (filter (λ r, Secrets.has_key k r = true)
                    (filter (λ r, Secrets.has_key k r = false) t)) with (@nil Secrets.row);
      [done|].
    symmetry. induction t as [|r t IH]; [done|].
    destruct (Secrets.has_key k r) eqn:Hr.
    + rewrite filter_cons_False; [exact IH | congruence].
    + rewrite filter_cons_True by done.
      rewrite filter_cons_False; [exact IH | congruence].
  - rewrite filter_cons_False.
    2:{ rewrite has_key_eq. destruct (String.eqb_spec k k'); congruence. }
    simpl. rewrite Nat.add_0_r. f_equal.
    induction t as [|[k0 v0] t IH]; [done|].
    destruct (String.eqb_spec k0 k) as [->|Hk].
    + rewrite filter_cons_False.
      2:{ rewrite has_key_eq, String.eqb_refl. congruence. }
      rewrite (filter_cons_False _ (k, v0)); [exact IH|].
      rewrite has_key_eq. destruct (String.eqb_spec k k'); congruence.
    + rewrite (filter_cons_True (λ r, Secrets.has_key k r = false)).
      2:{ rewrite has_key_eq. destruct (String.eqb_spec k0 k); congruence. }
      destruct (Secrets.has_key k' (k0, v0)) eqn:Hr.
      * rewrite !filter_cons_True by done. by rewrite IH.
      * rewrite !filter_cons_False by congruence. exact IH.
Qed.

Lemma rows_with_put_all (writes : list (string * string)) :
  ∀ d, (∀ k', Secrets.rows_with k' (Secrets.working d) ≤ 1) →
       ∀ k, Secrets.rows_with k (Secrets.working (Secrets.put_all writes d)) ≤ 1.
Proof.
  induction writes as [|[k0 v0] writes IH]; intros d Hd k; [apply Hd|].
  change (Secrets.put_all ((k0, v0) :: writes) d)
    with (Secrets.put_all writes (Secrets.put k0 v0 d)).
  apply IH. intros k'. simpl. rewrite rows_with_insert_or_replace.
  destruct (String.eqb k' k0); [lia | apply Hd].
Qed.

Lemma durable_put_all (writes : list (string * string)) :
  ∀ d, Secrets.durable d = Secrets.working d →
       Secrets.durable (Secrets.put_all writes d)
       = Secrets.working (Secrets.put_all writes d).
Proof.
  induction writes as [|[k0 v0] writes IH]; intros d Hd; [exact Hd|].
  change (Secrets.put_all ((k0, v0) :: writes) d)
    with (Secrets.put_all writes (Secrets.put k0 v0 d)).
  by apply IH.
Qed.

(** C4: [put] replaces the row of its key and commits before it returns.
    A second write to a key is what a read then returns, a read right after
    any write returns that write, the committed table equals what the
    connection sees, the key has exactly one row afterwards and other keys
    keep their rows; from a new table no key ever has two rows. *)
Theorem put_is_durable_upsert :
  (∀ d K v1 v2,
      Secrets.get K (Secrets.put K v2 (Secrets.put K v1 d)) = Some (Some v2))
  ∧ (∀ d K v,
        Secrets.get K (Secrets.put K v d) = Some (Some v)
        ∧ Secrets.durable (Secrets.put K v d) = Secrets.working (Secrets.put K v d)
        ∧ Secrets.select_value K (Secrets.durable (Secrets.put K v d)) = [Some v])
  ∧ (∀ d K v K',
        Secrets.rows_with K' (Secrets.durable (Secrets.put K v d))
        = if String.eqb K' K then 1 else Secrets.rows_with K' (Secrets.working d))
  ∧ (∀ writes K',
        Secrets.rows_with K'
          (Secrets.durable (Secrets.put_all writes (Secrets.open None))) ≤ 1).
Proof.
  split; [|split; [|split]].
  - intros d K v1 v2. unfold Secrets.get, Secrets.put. simpl.
    by rewrite select_insert_or_replace.
  - intros d K v. unfold Secrets.get, Secrets.put. simpl.
    by rewrite select_insert_or_replace.
  - intros d K v K'. simpl. apply rows_with_insert_or_replace.
  - intros writes K'.
    rewrite durable_put_all by done.
    apply rows_with_put_all. intros k'. unfold Secrets.rows_with. simpl. lia.
Qed.

(** ** The AI view *)

Import AIView.

Lemma filter_ne_live (c : nat) (l : list nat) :
  (l = [] ∨ ∃ c', l = [c'] ∧ Some c = Some c') → filter (λ c', c' ≠ c) l = [].
Proof.
  intros [->|(c' & -> & [= <-])]; [done|]. rewrite filter_cons_False; [done|]. by intros ?.
Qed.

Lemma inv_add_placeholder s : inv s → inv (add_placeholder s).1.
Proof.
  destruct s as [ch k provs cur d h t].
  intros (Hlive & Htd & Hchat). unfold inv, add_placeholder in *. simpl in *.
  destruct (truthy_str k), ch as [c|]; simpl.
  all: rewrite ?filter_ne_live by done.
  all: split; [first [by left | exact Hlive] | split; [done | exact Hchat]].
Qed.

Lemma inv_add_chat_stored s :
  inv s → truthy_str (api_key s) = true → inv (add_chat None s).1.
Proof.
  destruct s as [ch k provs cur d h t]. intros (Hlive & Htd & Hchat) Hk.
  unfold inv, add_chat in *. simpl in *. rewrite Hk. simpl.
  apply truthy_str_true in Hk.
  destruct ch as [c|]; simpl; destruct (provs !! cur); simpl.
  all: rewrite ?filter_ne_live by done.
  all: destruct Hlive as [Hl|(c' & Hl & [=])]; rewrite ?Hl.
  all: split; [right; eauto | split; [done|]].
  all: intros ? [= <-]; split; [done|].
  all: rewrite ?length_insert, length_app; simpl; lia.
Qed.

Lemma inv_set_api_key k s : k ≠ "" → inv s → inv (set_api_key k s).
Proof.
  destruct s. unfold inv. simpl. intros Hk (Hl & Ht & Hc).
  split; [done | split; [done|]]. intros c Hs. split; [done | by apply Hc].
Qed.

Lemma inv_set_current p s : inv s → inv (set_current p s).
Proof. by destruct s. Qed.

Lemma add_chat_unfold k s :
  add_chat k s =
  if truthy_opt k then add_chat None (set_api_key (default "" k) s)
  else add_chat None s.
Proof. destruct k as [[|]|]; reflexivity. Qed.

Lemma add_chat_no_key s :
  truthy_str (api_key s) = false → add_chat None s = add_placeholder s.
Proof. intros Hk. unfold add_chat. by rewrite Hk. Qed.

Lemma inv_add_chat k s : inv s → inv (add_chat k s).1.
Proof.
  intros Hinv. rewrite add_chat_unfold.
  destruct (truthy_opt k) eqn:Hk.
  - destruct k as [k|]; [|done]. simpl in *.
    apply inv_add_chat_stored; [|done].
    apply inv_set_api_key; [|done]. by apply truthy_str_true.
  - destruct (truthy_str (api_key s)) eqn:Hs.
    + by apply inv_add_chat_stored.
    + rewrite add_chat_no_key by done. by apply inv_add_placeholder.
Qed.

Lemma inv_init file : inv (init file).1.
Proof.
  unfold init. 
  set (s0 := mkAI _ _ _ _ _ _ _).
  assert (inv s0) by (repeat split; [by left|done..]).
  destruct (Secrets.get _ _); [by apply inv_add_chat | by apply inv_add_placeholder].
Qed.

Lemma inv_step o s : inv s → inv (step o s).1.
Proof.
  intros Hinv. destruct o as [p m|p|fs| |k|r]; simpl.
  - by destruct s.
  - unfold set_current_provider. destruct (String.eqb _ _); [done|].
    apply inv_add_chat. by apply inv_set_current.
  - unfold attach_file. destruct (chat s) eqn:Hc; [|done]. by destruct s.
  - by apply inv_add_placeholder.
  - by apply inv_add_chat.
  - unfold new_chat. destruct (chat s) as [c|] eqn:Hc; [|by apply inv_add_chat].
    assert (inv (emit (Reset c) s)) by (by destruct s).
    destruct r; simpl; [done| by apply inv_add_chat | done].
Qed.

Lemma reachable_inv s : reachable s → inv s.
Proof. induction 1; [apply inv_init | by apply inv_step]. Qed.

Lemma live_at_most_one s : inv s → length (live_after (trace s)) ≤ 1.
Proof. intros ([->|(c & -> & _)] & _); simpl; lia. Qed.

(** C5: in every state the view can reach at most one [Chat] is alive, it
    is the one [self.chat] refers to, and every construction in the trace
    happened with none alive; when [add_chat] replaces a chat, the old one is
    removed and destroyed before the new one is constructed. *)
Theorem one_live_session (s : AI) :
  reachable s →
  length (live_after (trace s)) ≤ 1
  ∧ (∀ c, c ∈ live_after (trace s) → chat s = Some c)
  ∧ teardown_first (trace s) = true
  ∧ (∀ c, chat s = Some c →
          ∃ evs, trace (add_chat None s).1
                 = evs ++ Construct (length (heap s)) :: Destroy c
                       :: RemoveItem (ChatItem c) :: trace s
                 ∧ (∀ c', Construct c' ∉ evs)
                 ∧ live_after (trace (add_chat None s).1) = [length (heap s)]).
Proof.
  intros Hr. pose proof (reachable_inv s Hr) as Hinv.
  split; [by apply live_at_most_one|].
  destruct s as [ch k provs cur d h t].
  destruct Hinv as (Hlive & Htd & Hchat). simpl in *.
  split; [|split; [done|]].
  - intros c Hc. destruct Hlive as [Hl|(c' & Hl & Hch)]; rewrite Hl in Hc.
    + by apply elem_of_nil in Hc.
    + apply list_elem_of_singleton in Hc. by subst.
  - intros c ->. destruct (Hchat c eq_refl) as [Hk _].
    apply truthy_str_true in Hk. unfold add_chat. simpl. rewrite Hk. simpl.
    destruct (provs !! cur); simpl; rewrite (filter_ne_live c) by done.
    + eexists [_; _; _]. split; [reflexivity|]. split; [|done].
      intros c' Hin. repeat (apply elem_of_cons in Hin as [?|Hin]; [done|]).
      by apply elem_of_nil in Hin.
    + exists []. split; [reflexivity|]. split; [|done].
      intros c' Hin. by apply elem_of_nil in Hin.
Qed.

Lemma one_live_session_witness :
  let s := (init (Some [(Secrets.GEMINI_API_KEY, Some "k")])).1 in
  length (live_after (trace s)) ≤ 1
  ∧ (∀ c, c ∈ live_after (trace s) → chat s = Some c)
  ∧ teardown_first (trace s) = true
  ∧ (∀ c, chat s = Some c →
          ∃ evs, trace (add_chat None s).1
                 = evs ++ Construct (length (heap s)) :: Destroy c
                       :: RemoveItem (ChatItem c) :: trace s
                 ∧ (∀ c', Construct c' ∉ evs)
                 ∧ live_after (trace (add_chat None s).1) = [length (heap s)]).
Proof.
  exact (one_live_session _ (reach_init (Some [(Secrets.GEMINI_API_KEY, Some "k")]))).
Defined.

(** C6: [set_current_provider] with the current provider returns at once;
    the view, its chat reference, its heap and its trace are unchanged. *)
Theorem set_current_provider_same (s : AI) :
  set_current_provider (current_provider s) s = (s, Returned)
  ∧ (set_current_provider (current_provider s) s).1 = s
  ∧ chat (set_current_provider (current_provider s) s).1 = chat s
  ∧ heap (set_current_provider (current_provider s) s).1 = heap s
  ∧ trace (set_current_provider (current_provider s) s).1 = trace s.
Proof.
  unfold set_current_provider. by rewrite String.eqb_refl.
Qed.

(** C10: [add_chat] with no credential while the stored one is empty shows
    the placeholder and returns; the database and the heap are unchanged and
    no [Chat] is constructed. *)
Theorem add_chat_without_credential (s : AI) (k : option string) :
  truthy_opt k = false → api_key s = "" →
  (add_chat k s).2 = Returned
  ∧ db (add_chat k s).1 = db s
  ∧ heap (add_chat k s).1 = heap s
  ∧ api_key (add_chat k s).1 = ""
  ∧ trace (add_chat k s).1
    = match chat s with
      | Some c => [Destroy c; RemoveItem (ChatItem c)]
      | None => []
      end ++ AddItem PlaceholderItem :: trace s
  ∧ (∀ c, Construct c ∈ trace (add_chat k s).1 → Construct c ∈ trace s).
Proof.
  intros Hk Hs. rewrite add_chat_unfold, Hk.
  rewrite add_chat_no_key by (by rewrite Hs).
  destruct s as [ch k0 provs cur d h t]. simpl in *. subst k0.
  unfold add_placeholder. simpl.
  destruct ch as [c|]; simpl; repeat split; try done.
  - intros c0 Hin. repeat (apply elem_of_cons in Hin as [?|Hin]; [done|]). done.
  - intros c0 Hin. repeat (apply elem_of_cons in Hin as [?|Hin]; [done|]). done.
Qed.

Lemma add_chat_without_credential_witness :
  let s := (init None).1 in
  (add_chat None s).2 = Returned
  ∧ db (add_chat None s).1 = db s
  ∧ heap (add_chat None s).1 = heap s
  ∧ api_key (add_chat None s).1 = ""
  ∧ trace (add_chat None s).1
    = match chat s with
      | Some c => [Destroy c; RemoveItem (ChatItem c)]
      | None => []
      end ++ AddItem PlaceholderItem :: trace s
  ∧ (∀ c, Construct c ∈ trace (add_chat None s).1 → Construct c ∈ trace s).
Proof.
  exact (add_chat_without_credential (init None).1 None eq_refl eq_refl).
Defined.

(** C7: with a chat present, a reset that returns ends [new_chat] with no
    new [Chat]; a reset that raises an [Exception] is swallowed and
    [add_chat] runs: a new [Chat] at a fresh address replaces the old one,
    and the only error that can still reach the caller is the provider
    lookup's. *)
Theorem new_chat_reset_failure_falls_through (s : AI) (c : chat_id) :
  reachable s → chat s = Some c →
  new_chat ResetReturns s = (emit (Reset c) s, Returned)
  ∧ heap (new_chat ResetReturns s).1 = heap s
  ∧ chat (new_chat ResetReturns s).1 = Some c
  ∧ new_chat ResetRaisesException s = add_chat None (emit (Reset c) s)
  ∧ (new_chat ResetRaisesException s).2 ≠ Raised Propagated
  ∧ (is_Some (api_providers s !! current_provider s) →
     (new_chat ResetRaisesException s).2 = Returned)
  ∧ chat (new_chat ResetRaisesException s).1 = Some (length (heap s))
  ∧ length (heap s) ≠ c
  ∧ length (heap (new_chat ResetRaisesException s).1) = S (length (heap s))
  ∧ Construct (length (heap s)) ∈ trace (new_chat ResetRaisesException s).1
  ∧ live_after (trace (new_chat ResetRaisesException s).1) = [length (heap s)].
Proof.
  intros Hr Hc. pose proof (reachable_inv s Hr) as (Hlive & Htd & Hchat).
  destruct (Hchat c Hc) as [Hk Hlt]. apply truthy_str_true in Hk.
  destruct s as [ch k provs cur d h t]. simpl in *. subst ch.
  unfold new_chat, add_chat. simpl. rewrite Hk. simpl.
  split; [done|]. split; [done|]. split; [done|]. split; [done|].
  destruct (provs !! cur) as [class|]; simpl; rewrite (filter_ne_live c) by done.
  all: split; [done|].
  all: split; [first [done | by intros [? ?]]|].
  all: split; [done|].
  all: split; [lia|].
  all: split; [by rewrite ?length_insert, length_app, Nat.add_1_r|].
  all: split; [rewrite !elem_of_cons; auto 10 | done].
Qed.

Lemma new_chat_reset_failure_witness :
  let s := (init (Some [(Secrets.GEMINI_API_KEY, Some "k")])).1 in
  new_chat ResetReturns s = (emit (Reset 0) s, Returned)
  ∧ heap (new_chat ResetReturns s).1 = heap s
  ∧ chat (new_chat ResetReturns s).1 = Some 0
  ∧ new_chat ResetRaisesException s = add_chat None (emit (Reset 0) s)
  ∧ (new_chat ResetRaisesException s).2 ≠ Raised Propagated
  ∧ (is_Some (api_providers s !! current_provider s) →
     (new_chat ResetRaisesException s).2 = Returned)
  ∧ chat (new_chat ResetRaisesException s).1 = Some (length (heap s))
  ∧ length (heap s) ≠ 0
  ∧ length (heap (new_chat ResetRaisesException s).1) = S (length (heap s))
  ∧ Construct (length (heap s)) ∈ trace (new_chat ResetRaisesException s).1
  ∧ live_after (trace (new_chat ResetRaisesException s).1) = [length (heap s)].
Proof.
  exact (new_chat_reset_failure_falls_through
           (init (Some [(Secrets.GEMINI_API_KEY, Some "k")])).1 0
           (reach_init _) eq_refl).
Defined.

(** C3 as the specification words it fails on the code: after activation
    with [a1] and a switch to a second provider that has no credential of
    its own in the table, the view is active on the new provider with
    [a1]. *)
Lemma provider_switch_stays_active :
  let s0 := (init None).1 in
  let s1 := (register_provider "B" "BModel" s0).1 in
  let s2 := (add_chat (Some "a1") s1).1 in
  let s3 := (set_current_provider "B" s2).1 in
  state_of s0 = Placeholder
  ∧ state_of s2 = Active 0 (Some (mkModel "Gemini1p5Flash" "a1"))
  ∧ Secrets.working (db s3) = [(Secrets.GEMINI_API_KEY, Some "a1")]
  ∧ state_of s3 = Active 1 (Some (mkModel "BModel" "a1"))
  ∧ state_of s3 ≠ Placeholder.
Proof.
  vm_compute. repeat split; try reflexivity. discriminate.
Qed.

Lemma insert_snoc {A} (h : list A) (x y : A) :
  <[length h := x]> (h ++ [y]) = h ++ [x].
Proof. induction h as [|a h IH]; simpl; [done | by rewrite IH]. Qed.

Lemma lookup_snoc {A} (h : list A) (x : A) : (h ++ [x]) !! length h = Some x.
Proof. induction h as [|a h IH]; simpl; [done | exact IH]. Qed.

Lemma live_singleton (c : nat) : bool_decide (c ∈ [c]) = true.
Proof. apply bool_decide_eq_true_2, list_elem_of_here. Qed.


(** *** Switching providers *)

#[local] Arguments Secrets.put : simpl never.

Ltac ai_red :=
  cbv beta iota zeta delta
      [remove_item add_item destroy set_model set_chat set_heap set_db
       set_api_key set_current set_api_providers emit construct
       chat api_key api_providers current_provider db heap trace fst snd].

Lemma add_chat_registered (s : AI) (class : model_class) :
  truthy_str (api_key s) = true →
  api_providers s !! current_provider s = Some class →
  add_chat None s =
  (let n := length (heap s) in
   let m := mkModel class (api_key s) in
   mkAI (Some n) (api_key s) (api_providers s) (current_provider s)
        (Secrets.put Secrets.GEMINI_API_KEY (api_key s) (db s))
        (heap s ++ [mkChat (Some m)])
        (RemoveItem PlaceholderItem :: AddItem (ChatItem n) :: SetModel n m
           :: Construct n
           :: match chat s with
              | Some c => Destroy c :: RemoveItem (ChatItem c) :: trace s
              | None => trace s
              end),
   Returned).
Proof.
  destruct s as [ch k provs cur d h t]. simpl. intros Hk Hp.
  unfold add_chat. simpl. rewrite Hk. simpl.
  destruct ch as [c|]; simpl; rewrite Hp; ai_red; by rewrite insert_snoc.
Qed.

Lemma live_after_replaced (t : list event) (c : chat_id) :
  (live_after t = [] ∨ ∃ c', live_after t = [c'] ∧ Some c = Some c') →
  live_after (Destroy c :: RemoveItem (ChatItem c) :: t) = [].
Proof. intros Hl. simpl. by apply filter_ne_live. Qed.

Lemma live_after_activated (rest : list event) (n : chat_id) (m : model_instance) :
  live_after rest = [] →
  live_after (RemoveItem PlaceholderItem :: AddItem (ChatItem n) :: SetModel n m
                :: Construct n :: rest) = [n].
Proof. intros Hl. simpl. by rewrite Hl. Qed.

Lemma state_of_fresh k provs cur d (h : list chat_obj) m t :
  live_after t = [length h] →
  state_of (mkAI (Some (length h)) k provs cur d (h ++ [mkChat (Some m)]) t)
  = Active (length h) (Some m).
Proof.
  intros Hl. unfold state_of. cbv beta iota delta [chat trace heap].
  by rewrite Hl, live_singleton, lookup_snoc.
Qed.

Lemma get_put (k v : string) (d : Secrets.database) :
  Secrets.get k (Secrets.put k v d) = Some (Some v).
Proof.
  unfold Secrets.get, Secrets.put. simpl. by rewrite select_insert_or_replace.
Qed.

Lemma rows_with_put_other (k k' v : string) (d : Secrets.database) :
  k' ≠ k →
  Secrets.rows_with k' (Secrets.working (Secrets.put k v d))
  = Secrets.rows_with k' (Secrets.working d).
Proof.
  intros Hne. unfold Secrets.put. simpl. rewrite rows_with_insert_or_replace.
  by destruct (String.eqb_spec k' k).
Qed.

Lemma filter_filter_same (k : string) (t : Secrets.table) :
  filter (λ r, Secrets.has_key k r = false) (filter (λ r, Secrets.has_key k r = false) t)
  = filter (λ r, Secrets.has_key k r = false) t.
Proof.
  induction t as [|r t IH]; [done|].
  destruct (Secrets.has_key k r) eqn:Hr.
  - rewrite filter_cons_False; [exact IH | congruence].
  - rewrite (filter_cons_True _ r t) by done.
    rewrite filter_cons_True by done. by rewrite IH.
Qed.

Lemma select_insert_other (k k' v : string) (t : Secrets.table) :
  k' ≠ k →
  Secrets.select_value k' (Secrets.insert_or_replace k v t) = Secrets.select_value k' t.
Proof.
  intros Hne. unfold Secrets.select_value, Secrets.insert_or_replace.
  rewrite filter_app, map_app.
  rewrite (filter_cons_False _ (k, Some v)).
  2:{ rewrite has_key_eq. destruct (String.eqb_spec k k'); congruence. }
  simpl. rewrite app_nil_r. f_equal.
  induction t as [|[k0 v0] t IH]; [done|].
  destruct (String.eqb_spec k0 k) as [->|Hk].
  - rewrite filter_cons_False.
    2:{ rewrite has_key_eq, String.eqb_refl. congruence. }
    rewrite (filter_cons_False _ (k, v0)); [exact IH|].
    rewrite has_key_eq. destruct (String.eqb_spec k k'); congruence.
  - rewrite (filter_cons_True (λ r, Secrets.has_key k r = false)).
    2:{ rewrite has_key_eq. destruct (String.eqb_spec k0 k); congruence. }
    destruct (Secrets.has_key k' (k0, v0)) eqn:Hr.
    + rewrite !filter_cons_True by done. by rewrite IH.
    + rewrite !filter_cons_False by congruence. exact IH.
Qed.

Lemma get_put_other (k k' v : string) (d : Secrets.database) :
  k' ≠ k → Secrets.get k' (Secrets.put k v d) = Secrets.get k' d.
Proof.
  intros Hne. unfold Secrets.get, Secrets.put. simpl. by rewrite select_insert_other.
Qed.

Lemma other_rows_put (k v : string) (d : Secrets.database) :
  Secrets.other_rows k (Secrets.working (Secrets.put k v d))
  = Secrets.other_rows k (Secrets.working d)
  ∧ Secrets.durable (Secrets.put k v d) = Secrets.working (Secrets.put k v d).
Proof.
  split; [|done]. unfold Secrets.other_rows, Secrets.put. simpl.
  unfold Secrets.insert_or_replace. rewrite filter_app, filter_filter_same.
  rewrite (filter_cons_False _ (k, Some v)).
  2:{ rewrite has_key_eq, String.eqb_refl. congruence. }
  by rewrite filter_nil, app_nil_r.
Qed.

(** C3 as the code has it: there is one credential, kept in [api_key] and
    under the one key [GEMINI_API_KEY]; after activation with [a1], a switch
    to another registered provider gives an active chat on that provider
    built with [a1], and the switch back gives an active chat on the first
    provider with [a1] again, with no placeholder shown in between.  The
    rows of the table under every other key are the same rows as before,
    committed, so no other key is added, removed or given another value. *)
Theorem provider_switch_shares_credential
        (s : AI) (a1 B : string) (fA fB : model_class) :
  reachable s → a1 ≠ "" →
  api_providers s !! current_provider s = Some fA →
  api_providers s !! B = Some fB →
  B ≠ current_provider s →
  let A := current_provider s in
  let n := length (heap s) in
  let r1 := add_chat (Some a1) s in
  let r2 := set_current_provider B r1.1 in
  let r3 := set_current_provider A r2.1 in
  r1.2 = Returned
  ∧ state_of r1.1 = Active n (Some (mkModel fA a1))
  ∧ r2.2 = Returned
  ∧ current_provider r2.1 = B
  ∧ state_of r2.1 = Active (S n) (Some (mkModel fB a1))
  ∧ r3.2 = Returned
  ∧ current_provider r3.1 = A
  ∧ state_of r3.1 = Active (S (S n)) (Some (mkModel fA a1))
  ∧ api_key r3.1 = a1
  ∧ Secrets.get Secrets.GEMINI_API_KEY (db r2.1) = Some (Some a1)
  ∧ Secrets.get Secrets.GEMINI_API_KEY (db r3.1) = Some (Some a1)
  ∧ Secrets.other_rows Secrets.GEMINI_API_KEY (Secrets.working (db r3.1))
    = Secrets.other_rows Secrets.GEMINI_API_KEY (Secrets.working (db s))
  ∧ Secrets.durable (db r3.1) = Secrets.working (db r3.1)
  ∧ (∀ k, k ≠ Secrets.GEMINI_API_KEY →
          Secrets.get k (db r3.1) = Secrets.get k (db s)
          ∧ Secrets.rows_with k (Secrets.working (db r3.1))
            = Secrets.rows_with k (Secrets.working (db s)))
  ∧ (AddItem PlaceholderItem ∈ trace r3.1 → AddItem PlaceholderItem ∈ trace s).
Proof.
  intros Hr Ha HA HB Hne.
  pose proof (reachable_inv s Hr) as (Hlive & Htd & Hchat). clear Hr.
  apply truthy_str_true in Ha.
  destruct s as [ch k provs cur d h t].
  cbv beta iota delta [api_providers current_provider heap] in *.
  intros A n r1 r2 r3. subst A n.
  assert (HBA : String.eqb B cur = false) by (by apply String.eqb_neq).
  assert (HAB : String.eqb cur B = false) by (by apply String.eqb_neq).
  assert (E1 : r1 = add_chat None (set_api_key a1 (mkAI ch k provs cur d h t))).
  { subst r1. rewrite add_chat_unfold. simpl. by rewrite Ha. }
  rewrite (add_chat_registered _ fA) in E1 by done.
  revert E1. ai_red. intros E1.
  assert (E2 : r2 = add_chat None (set_current B r1.1)).
  { subst r2. unfold set_current_provider. rewrite E1. by ai_red; rewrite HBA. }
  rewrite E1 in E2. revert E2. ai_red. intros E2.
  rewrite (add_chat_registered _ fB) in E2 by done.
  revert E2. ai_red. intros E2.
  assert (E3 : r3 = add_chat None (set_current cur r2.1)).
  { subst r3. unfold set_current_provider. rewrite E2. by ai_red; rewrite HAB. }
  rewrite E2 in E3. revert E3. ai_red. intros E3.
  rewrite (add_chat_registered _ fA) in E3 by done.
  revert E3. ai_red. intros E3.
  clearbody r1 r2 r3. subst r1 r2 r3. ai_red.
  assert (L0 : live_after match ch with
                          | Some c => Destroy c :: RemoveItem (ChatItem c) :: t
                          | None => t
                          end = []).
  { destruct ch as [c|]; [by apply live_after_replaced|].
    by destruct Hlive as [Hl|(? & _ & [=])]. }
  pose proof (live_after_activated _ (length h) (mkModel fA a1) L0) as L1.
  pose proof (live_after_replaced _ (length h) (or_intror (ex_intro _ _ (conj L1 eq_refl)))) as L1'.
  pose proof (live_after_activated _ (length (h ++ [mkChat (Some (mkModel fA a1))]))
                                   (mkModel fB a1) L1') as L2.
  pose proof (live_after_replaced _ _ (or_intror (ex_intro _ _ (conj L2 eq_refl)))) as L2'.
  pose proof (live_after_activated
                _ (length ((h ++ [mkChat (Some (mkModel fA a1))])
                             ++ [mkChat (Some (mkModel fB a1))]))
                (mkModel fA a1) L2') as L3.
  assert (Hn1 : length (h ++ [mkChat (Some (mkModel fA a1))]) = S (length h)).
  { rewrite length_app. simpl. lia. }
  assert (Hn2 : length ((h ++ [mkChat (Some (mkModel fA a1))])
                          ++ [mkChat (Some (mkModel fB a1))]) = S (S (length h))).
  { rewrite length_app, Hn1. simpl. lia. }
  split; [done|]. split; [by apply state_of_fresh|].
  split; [done|]. split; [done|].
  split; [by rewrite <- Hn1; apply state_of_fresh|].
  split; [done|]. split; [done|].
  split; [by rewrite <- Hn2; apply state_of_fresh|].
  split; [done|].
  split; [apply get_put|]. split; [apply get_put|].
  split.
  { by rewrite !(proj1 (other_rows_put _ _ _)). }
  split; [done|].
  split.
  - intros k0 Hk0. by rewrite !get_put_other, !rows_with_put_other.
  - rewrite !elem_of_cons. intros Hin.
    repeat (destruct Hin as [Hin|Hin]; [discriminate Hin|]).
    destruct ch as [c|]; [|exact Hin].
    rewrite !elem_of_cons in Hin.
    repeat (destruct Hin as [Hin|Hin]; [discriminate Hin|]). exact Hin.
Qed.

Lemma provider_switch_witness :
  let s := (register_provider "B" "BModel" (init None).1).1 in
  let A := current_provider s in
  let n := length (heap s) in
  let r1 := add_chat (Some "a1") s in
  let r2 := set_current_provider "B" r1.1 in
  let r3 := set_current_provider A r2.1 in
  r1.2 = Returned
  ∧ state_of r1.1 = Active n (Some (mkModel "Gemini1p5Flash" "a1"))
  ∧ r2.2 = Returned
  ∧ current_provider r2.1 = "B"
  ∧ state_of r2.1 = Active (S n) (Some (mkModel "BModel" "a1"))
  ∧ r3.2 = Returned
  ∧ current_provider r3.1 = A
  ∧ state_of r3.1 = Active (S (S n)) (Some (mkModel "Gemini1p5Flash" "a1"))
  ∧ api_key r3.1 = "a1"
  ∧ Secrets.get Secrets.GEMINI_API_KEY (db r2.1) = Some (Some "a1")
  ∧ Secrets.get Secrets.GEMINI_API_KEY (db r3.1) = Some (Some "a1")
  ∧ Secrets.other_rows Secrets.GEMINI_API_KEY (Secrets.working (db r3.1))
    = Secrets.other_rows Secrets.GEMINI_API_KEY (Secrets.working (db s))
  ∧ Secrets.durable (db r3.1) = Secrets.working (db r3.1)
  ∧ (∀ k, k ≠ Secrets.GEMINI_API_KEY →
          Secrets.get k (db r3.1) = Secrets.get k (db s)
          ∧ Secrets.rows_with k (Secrets.working (db r3.1))
            = Secrets.rows_with k (Secrets.working (db s)))
  ∧ (AddItem PlaceholderItem ∈ trace r3.1 → AddItem PlaceholderItem ∈ trace s).
Proof.
  apply (provider_switch_shares_credential
           (register_provider "B" "BModel" (init None).1).1
           "a1" "B" "Gemini1p5Flash" "BModel").
  - apply (reach_step (RegisterProvider "B" "BModel")). apply reach_init.
  - discriminate.
  - vm_compute. reflexivity.
  - vm_compute. reflexivity.
  - discriminate.
Defined.

(** * Further properties *)

(** ** Formatting *)

Lemma append_cons (a : ascii) (s t : string) : String a s +:+ t = String a (s +:+ t).
Proof. reflexivity. Qed.

Lemma append_snoc (out : string) (c : ascii) (r : string) :
  Fmt.snoc out c +:+ r = out +:+ String c r.
Proof.
  unfold Fmt.snoc. induction out as [|a out IH]; [done|].
  by rewrite !append_cons, IH.
Qed.

Lemma append_assoc' (a b c : string) : (a +:+ b) +:+ c = a +:+ (b +:+ c).
Proof. induction a as [|x a IH]; [done | by rewrite !append_cons, IH]. Qed.

Lemma append_empty_r (a : string) : a +:+ "" = a.
Proof. induction a as [|x a IH]; [done | by rewrite !append_cons, IH]. Qed.

Lemma plain_char_neq (c : ascii) :
  Fmt.plain_char c = true →
  Ascii.eqb c Fmt.lbrace = false ∧ Ascii.eqb c Fmt.rbrace = false.
Proof.
  unfold Fmt.plain_char. intros Hc. apply andb_true_iff in Hc as [H1 H2].
  by split; apply negb_true_iff.
Qed.

Lemma scan_plain_prefix (pre : string) :
  ∀ rest arg nb out,
    Fmt.brace_free pre = true →
    Fmt.scan (pre +:+ rest) arg Fmt.Text nb out
    = Fmt.scan rest arg Fmt.Text nb (out +:+ pre).
Proof.
  induction pre as [|c pre IH]; intros rest arg nb out Hp.
  - simpl. by rewrite append_empty_r.
  - simpl in Hp. apply andb_true_iff in Hp as [Hc Hp].
    apply plain_char_neq in Hc as [Hl Hr].
    simpl. rewrite Hl, Hr, IH by done. by rewrite append_snoc.
Qed.

Lemma scan_plain (t : string) (arg : string) nb out :
  Fmt.brace_free t = true →
  Fmt.scan t arg Fmt.Text nb out = Fmt.Formatted (out +:+ t).
Proof.
  intros Ht. rewrite <- (append_empty_r t) at 1.
  rewrite scan_plain_prefix by done. reflexivity.
Qed.

Lemma str_format_one_field (pre post arg : string) :
  Fmt.brace_free pre = true → Fmt.brace_free post = true →
  Fmt.str_format (pre +:+ "{}" +:+ post) arg = Fmt.Formatted (pre +:+ arg +:+ post).
Proof.
  intros Hpre Hpost. unfold Fmt.str_format.
  rewrite scan_plain_prefix by done. simpl.
  rewrite scan_plain by done. by rewrite append_assoc'.
Qed.

Lemma format_target (self term : string) :
  Fmt.format self term = Fmt.str_format self (Fmt.target term).
Proof. unfold Fmt.format, Fmt.target. by destruct (_ || _). Qed.

(** X1: on a template with one [{}] between brace-free text,
    [Formattable.format] gives the text before, then the term (as it is when
    empty or starting with [http:] or [https:], behind the GitHub base
    otherwise), then the text after.  The clone command's [clone {}] is such
    a template. *)
Theorem format_single_placeholder (pre post term : string) :
  Fmt.brace_free pre = true → Fmt.brace_free post = true →
  Fmt.format (pre +:+ "{}" +:+ post) term
  = Fmt.Formatted
      (pre +:+
       (if String.eqb term "" || String.prefix "http:" term || String.prefix "https:" term
        then term else "https://github.com/" +:+ term) +:+ post).
Proof.
  intros Hpre Hpost. rewrite format_target, str_format_one_field by done.
  unfold Fmt.target. by rewrite URL_match_prefix, truthy_str_eqb, orb_assoc.
Qed.

Lemma format_single_placeholder_witness :
  Fmt.format Fmt.clone_template "octocat/Hello-World"
  = Fmt.Formatted "clone https://github.com/octocat/Hello-World".
Proof.
  exact (format_single_placeholder "clone " "" "octocat/Hello-World" eq_refl eq_refl).
Defined.

(** X2: a template without braces ignores the term: [format] returns the
    template itself, whatever the term. *)
Theorem format_without_placeholder (self term : string) :
  Fmt.brace_free self = true → Fmt.format self term = Fmt.Formatted self.
Proof.
  intros Hs. rewrite format_target. unfold Fmt.str_format. by rewrite scan_plain.
Qed.

Lemma format_without_placeholder_witness :
  Fmt.format "clone" "octocat/Hello-World" = Fmt.Formatted "clone".
Proof. exact (format_without_placeholder "clone" "octocat/Hello-World" eq_refl). Defined.

Lemma URL_match_target (term : string) :
  term ≠ "" → Fmt.URL_match (Fmt.target term) = true.
Proof.
  intros Hne. unfold Fmt.target.
  apply truthy_str_true in Hne. rewrite Hne. simpl.
  destruct (Fmt.URL_match term) eqn:Hu; [done|]. reflexivity.
Qed.

Lemma target_idem (term : string) : Fmt.target (Fmt.target term) = Fmt.target term.
Proof.
  destruct (decide (term = "")) as [->|Hne]; [done|].
  unfold Fmt.target at 1. by rewrite URL_match_target, orb_true_r.
Qed.

(** X3: the value substituted for a non-empty term always passes the
    [URL] test itself, so the base is never prepended twice: formatting the
    substituted value again gives the same result as formatting the term. *)
Theorem format_twice (self term : string) :
  Fmt.URL_match (Fmt.target term) = truthy_str term
  ∧ Fmt.target (Fmt.target term) = Fmt.target term
  ∧ Fmt.format self (Fmt.target term) = Fmt.format self term.
Proof.
  split.
  - destruct (decide (term = "")) as [->|Hne]; [done|].
    rewrite URL_match_target by done. symmetry. by apply truthy_str_true.
  - split; [apply target_idem|]. by rewrite !format_target, target_idem.
Qed.

(** ** Registry and secrets *)

Section RegistryMore.
Context {App : Type} {common : Registry.Common App}.
Import Registry.

Lemma registry_run_snoc (os : list op) (o : op) (w : Settings * App) :
  run (os ++ [o]) w = step o (run os w).
Proof. unfold run. by rewrite foldl_snoc. Qed.

Lemma fetch_step (o : op) (w : Settings * App) :
  palette_fetch (step o w)
  = if is_external o then palette_fetch w
    else Some (mkActionSet "Show and run commands" ">"
                           (commands (step o w).1 ++ get_games w.2) []).
Proof. by destruct o. Qed.

(** X4: on a registry that starts from [__init__], reading [actionset]
    fails (the attribute is unset) exactly as long as neither
    [register_command], [generate_actionset] nor [late_setup] has run. *)
Theorem actionset_unset_until_compiled (os : list op) (app : App) :
  palette_fetch (run os (init, app)) = None ↔ forallb is_external os = true.
Proof.
  induction os as [|o os IH] using rev_ind; [done|].
  rewrite registry_run_snoc, fetch_step, forallb_app. simpl. rewrite andb_true_r.
  destruct (is_external o).
  - by rewrite andb_true_r.
  - rewrite andb_false_r. split; discriminate.
Qed.

Lemma commands_step_external (o : op) (w : Settings * App) :
  is_external o = true → commands (step o w).1 = commands w.1.
Proof. by destruct o. Qed.

(** X5: whatever calls and changes of the application happened since
    [__init__], the action set held has the fixed title and prefix, no pinned
    items, and its items start with the whole current command list; while
    none is held the command list is still empty. *)
Theorem actionset_tracks_commands (os : list op) (app : App) :
  match palette_fetch (run os (init, app)) with
  | Some a =>
      title a = "Show and run commands" ∧ prefix a = ">" ∧ pinned a = []
      ∧ commands (run os (init, app)).1 `prefix_of` items a
  | None => commands (run os (init, app)).1 = []
  end.
Proof.
  induction os as [|o os IH] using rev_ind; [done|].
  rewrite registry_run_snoc, fetch_step.
  destruct (is_external o) eqn:Ho.
  - by rewrite commands_step_external.
  - simpl. repeat split. by apply prefix_app_r.
Qed.

(** X6: [late_setup] gives the same registry whatever was registered
    before; commands registered after it follow the extracted ones, one
    command per extracted method. *)
Theorem late_setup_resets (base : App) :
  (∀ s1 s2 : Settings, late_setup base s1 = late_setup base s2)
  ∧ (∀ (s : Settings) (regs : list (command * App)),
        commands (register_all regs (late_setup base s))
        = map (λ nm, (formalize_command nm.1, InvokeMethod nm.2)) (extract_commands base)
          ++ map fst regs)
  ∧ (∀ s : Settings,
        length (commands (late_setup base s)) = length (extract_commands base)).
Proof.
  split; [done|]. split.
  - intros s regs. by rewrite commands_register_all.
  - intros s. simpl. by rewrite length_map.
Qed.

End RegistryMore.

Import AIView.

(** X7: a read after a write returns the written value for the written key
    and what it returned before for any other key; a read returns nothing
    exactly when the table has no row for the key. *)
Theorem get_after_put (d : Secrets.database) (k k' v : string) :
  Secrets.get k' (Secrets.put k v d)
  = (if String.eqb k' k then Some (Some v) else Secrets.get k' d)
  ∧ (Secrets.get k d = None ↔ Secrets.rows_with k (Secrets.working d) = 0).
Proof.
  split.
  - destruct (String.eqb_spec k' k) as [->|Hne]; [apply get_put | by apply get_put_other].
  - unfold Secrets.get, Secrets.select_value, Secrets.rows_with.
    destruct (filter _ _) as [|r l]; simpl; split; done.
Qed.

(** X8: writing the same value under the same key twice leaves the
    database as after the first write. *)
Theorem put_idempotent (d : Secrets.database) (k v : string) :
  Secrets.put k v (Secrets.put k v d) = Secrets.put k v d.
Proof.
  unfold Secrets.put, Secrets.commit, Secrets.execute_insert_or_replace. simpl.
  assert (E : Secrets.insert_or_replace k v (Secrets.insert_or_replace k v (Secrets.working d))
              = Secrets.insert_or_replace k v (Secrets.working d)).
  { unfold Secrets.insert_or_replace. rewrite filter_app, filter_filter_same.
    rewrite (filter_cons_False _ (k, Some v)).
    2:{ rewrite has_key_eq, String.eqb_refl. congruence. }
    by rewrite filter_nil, app_nil_r. }
  by rewrite E.
Qed.

(** X9: creating the table is idempotent across opens, a new file has no
    value for any key, and a value written is read back after the file is
    opened again. *)
Theorem reopen_keeps_rows (file : option Secrets.table) (d : Secrets.database) (k v : string) :
  Secrets.open (Some (Secrets.durable (Secrets.open file))) = Secrets.open file
  ∧ Secrets.get k (Secrets.open None) = None
  ∧ Secrets.get k (Secrets.open (Some (Secrets.durable (Secrets.put k v d))))
    = Some (Some v).
Proof.
  split; [by destruct file|]. split; [done|].
  unfold Secrets.get, Secrets.put. simpl. by rewrite select_insert_or_replace.
Qed.

(** ** The AI view *)

Lemma add_placeholder_frame (s : AI) :
  let s' := (add_placeholder s).1 in
  api_key s' = api_key s ∧ db s' = db s ∧ heap s' = heap s ∧ chat s' = chat s
  ∧ api_providers s' = api_providers s ∧ current_provider s' = current_provider s
  ∧ constructed (trace s') = constructed (trace s).
Proof.
  destruct s as [ch k provs cur d h t]. unfold add_placeholder. simpl.
  by destruct (truthy_str k), ch.
Qed.

Lemma add_chat_stored_frame (s : AI) :
  truthy_str (api_key s) = true →
  let s' := (add_chat None s).1 in
  api_key s' = api_key s
  ∧ db s' = Secrets.put Secrets.GEMINI_API_KEY (api_key s) (db s)
  ∧ length (heap s') = S (length (heap s))
  ∧ chat s' = Some (length (heap s))
  ∧ api_providers s' = api_providers s ∧ current_provider s' = current_provider s
  ∧ constructed (trace s') = constructed (trace s) ++ [length (heap s)].
Proof.
  destruct s as [ch k provs cur d h t]. simpl. intros Hk.
  unfold add_chat. simpl. rewrite Hk. simpl.
  destruct ch as [c|]; simpl; destruct (provs !! cur); simpl;
    rewrite ?length_insert, length_app, Nat.add_1_r; done.
Qed.

(** Every call either leaves credential, table and heap alone, or ends with
    a non-empty credential written under the one key and one more widget. *)
Lemma step_frame (o : op) (s : AI) :
  let s' := (step o s).1 in
  (api_key s' = api_key s ∧ db s' = db s ∧ heap s' = heap s
   ∧ constructed (trace s') = constructed (trace s))
  ∨ (api_key s' ≠ ""
     ∧ db s' = Secrets.put Secrets.GEMINI_API_KEY (api_key s') (db s)
     ∧ length (heap s') = S (length (heap s))
     ∧ constructed (trace s') = constructed (trace s) ++ [length (heap s)]).
Proof.
  assert (Hac : ∀ s0, let s' := (add_chat None s0).1 in
     (api_key s' = api_key s0 ∧ db s' = db s0 ∧ heap s' = heap s0
      ∧ constructed (trace s') = constructed (trace s0))
     ∨ (api_key s' ≠ ""
        ∧ db s' = Secrets.put Secrets.GEMINI_API_KEY (api_key s') (db s0)
        ∧ length (heap s') = S (length (heap s0))
        ∧ constructed (trace s') = constructed (trace s0) ++ [length (heap s0)])).
  { intros s0. cbv zeta. destruct (truthy_str (api_key s0)) eqn:Hk.
    - right. destruct (add_chat_stored_frame s0 Hk) as (E1 & E2 & E3 & _ & _ & _ & E4).
      rewrite E1. apply truthy_str_true in Hk. done.
    - left. rewrite add_chat_no_key by done.
      by destruct (add_placeholder_frame s0) as (? & ? & ? & _ & _ & _ & ?). }
  cbv zeta. destruct o as [p m|p|fs| |k|r]; simpl.
  - left. by destruct s.
  - unfold set_current_provider. destruct (String.eqb _ _); [by left|].
    destruct (Hac (set_current p s)) as [H|H]; [left|right]; by destruct s.
  - left. unfold attach_file. by destruct s as [[c|] ? ? ? ? ? ?].
  - left. by destruct (add_placeholder_frame s) as (? & ? & ? & _ & _ & _ & ?).
  - rewrite add_chat_unfold. destruct (truthy_opt k) eqn:Hk; [|apply Hac].
    destruct k as [k|]; [|done]. simpl in Hk. simpl (default _ _). right.
    destruct (add_chat_stored_frame (set_api_key k s)) as (E1 & E2 & E3 & _ & _ & _ & E4);
      [by destruct s|].
    rewrite E1. apply truthy_str_true in Hk. by destruct s.
  - unfold new_chat. destruct (chat s) as [c|] eqn:Hc; [|apply Hac].
    destruct r; [left; by destruct s | | left; by destruct s].
    destruct (Hac (emit (Reset c) s)) as [H|H]; [left|right]; by destruct s.
Qed.

Lemma init_frame (file : option Secrets.table) :
  let s' := (init file).1 in
  (api_key s' = "" ∧ db s' = Secrets.open file ∧ heap s' = []
   ∧ constructed (trace s') = [])
  ∨ (api_key s' ≠ ""
     ∧ db s' = Secrets.put Secrets.GEMINI_API_KEY (api_key s') (Secrets.open file)
     ∧ length (heap s') = 1
     ∧ constructed (trace s') = [0]).
Proof.
  cbv zeta. unfold init. set (s0 := mkAI _ _ _ _ _ _ _).
  destruct (Secrets.get _ _) as [v|].
  - rewrite add_chat_unfold. destruct (truthy_opt v) eqn:Hv.
    + destruct v as [v|]; [|done]. simpl in Hv. simpl (default _ _). right.
      destruct (add_chat_stored_frame (set_api_key v s0) Hv) as (E1 & E2 & E3 & _ & _ & _ & E4).
      rewrite E1. apply truthy_str_true in Hv. done.
    + left. rewrite add_chat_no_key by done.
      by destruct (add_placeholder_frame s0) as (? & ? & ? & _ & _ & _ & ?).
  - left. by destruct (add_placeholder_frame s0) as (? & ? & ? & _ & _ & _ & ?).
Qed.

(** X10: in every state the view can reach nothing is left uncommitted,
    and a non-empty [api_key] is the value stored under [GEMINI_API_KEY]. *)
Theorem credential_is_stored (s : AI) :
  reachable s →
  Secrets.durable (db s) = Secrets.working (db s)
  ∧ (api_key s = ""
     ∨ Secrets.get Secrets.GEMINI_API_KEY (db s) = Some (Some (api_key s))).
Proof.
  induction 1 as [file|o s Hr [IHd IHk]].
  - destruct (init_frame file) as [(E1 & E2 & _)|(Hk & E2 & _)]; rewrite E2.
    + split; [by destruct file | by left].
    + split; [done | right; apply get_put].
  - destruct (step_frame o s) as [(E1 & E2 & _)|(Hk & E2 & _)]; rewrite E2.
    + by rewrite E1.
    + split; [done | right; apply get_put].
Qed.


Lemma credential_is_stored_witness :
  let s := run [AddChat (Some "k2"); AddPlaceholder]
               (init (Some [(Secrets.GEMINI_API_KEY, Some "k")])).1 in
  reachable s
  ∧ Secrets.durable (db s) = Secrets.working (db s)
  ∧ (api_key s = ""
     ∨ Secrets.get Secrets.GEMINI_API_KEY (db s) = Some (Some (api_key s))).
Proof.
  assert (Hr : reachable (run [AddChat (Some "k2"); AddPlaceholder]
                              (init (Some [(Secrets.GEMINI_API_KEY, Some "k")])).1)).
  { apply (reach_step AddPlaceholder), (reach_step (AddChat (Some "k2"))), reach_init. }
  split; [exact Hr | exact (credential_is_stored _ Hr)].
Defined.


Lemma view_run_snoc (os : list op) (o : op) (s : AI) :
  run (os ++ [o]) s = (step o (run os s)).1.
Proof. unfold run. by rewrite foldl_snoc. Qed.

(** X12: the only call that changes [api_key] is [add_chat] with a
    non-empty argument, which sets it to that argument. *)
Theorem api_key_only_set_by_add_chat (o : op) (s : AI) :
  api_key (step o s).1
  = match o with
    | AddChat (Some k) => if truthy_str k then k else api_key s
    | _ => api_key s
    end.
Proof.
  assert (Hac : ∀ s0, api_key (add_chat None s0).1 = api_key s0).
  { intros s0. destruct (truthy_str (api_key s0)) eqn:Hk.
    - by destruct (add_chat_stored_frame s0 Hk) as (E1 & _).
    - rewrite add_chat_no_key by done. by destruct (add_placeholder_frame s0) as (E1 & _). }
  destruct o as [p m|p|fs| |k|r]; simpl.
  - by destruct s.
  - unfold set_current_provider. destruct (String.eqb _ _); [done|].
    rewrite Hac. by destruct s.
  - unfold attach_file. by destruct s as [[c|] ? ? ? ? ? ?].
  - by destruct (add_placeholder_frame s) as (E1 & _).
  - rewrite add_chat_unfold. destruct k as [k|]; simpl; [|apply Hac].
    destruct (truthy_str k); rewrite Hac; by destruct s.
  - unfold new_chat. destruct (chat s) as [c|]; [|apply Hac].
    destruct r; [by destruct s | | by destruct s].
    rewrite Hac. by destruct s.
Qed.

(** X13: once a credential is set no series of calls empties it. *)
Theorem credential_never_cleared (os : list op) (s : AI) :
  api_key s ≠ "" → api_key (run os s) ≠ "".
Proof.
  intros Hs. induction os as [|o os IH] using rev_ind; [done|].
  rewrite view_run_snoc.
  destruct (step_frame o (run os s)) as [(E & _)|(Hk & _)]; [by rewrite E | done].
Qed.

Lemma credential_never_cleared_witness :
  api_key (run [AddChat (Some ""); AddPlaceholder; SetCurrentProvider "nowhere"]
               (init (Some [(Secrets.GEMINI_API_KEY, Some "k")])).1) ≠ "".
Proof.
  apply (credential_never_cleared
           [AddChat (Some ""); AddPlaceholder; SetCurrentProvider "nowhere"]
           (init (Some [(Secrets.GEMINI_API_KEY, Some "k")])).1).
  vm_compute. discriminate.
Defined.

(** X14: no series of calls changes what the table holds under any key
    other than [GEMINI_API_KEY]. *)
Theorem other_keys_untouched (os : list op) (s : AI) (k : string) :
  k ≠ Secrets.GEMINI_API_KEY →
  Secrets.get k (db (run os s)) = Secrets.get k (db s)
  ∧ Secrets.rows_with k (Secrets.working (db (run os s)))
    = Secrets.rows_with k (Secrets.working (db s)).
Proof.
  intros Hk. induction os as [|o os [IH1 IH2]] using rev_ind; [done|].
  rewrite view_run_snoc.
  destruct (step_frame o (run os s)) as [(_ & E & _)|(_ & E & _)]; rewrite E; [done|].
  by rewrite get_put_other, rows_with_put_other.
Qed.

Lemma other_keys_untouched_witness :
  let s := (init (Some [("OTHER", Some "x")])).1 in
  Secrets.get "OTHER" (db (run [AddChat (Some "k"); NewChat ResetRaisesException] s))
  = Secrets.get "OTHER" (db s)
  ∧ Secrets.rows_with "OTHER"
      (Secrets.working (db (run [AddChat (Some "k"); NewChat ResetRaisesException] s)))
    = Secrets.rows_with "OTHER" (Secrets.working (db s)).
Proof.
  apply (other_keys_untouched [AddChat (Some "k"); NewChat ResetRaisesException]
                              (init (Some [("OTHER", Some "x")])).1 "OTHER").
  discriminate.
Defined.

Lemma state_of_add_placeholder (s : AI) : state_of (add_placeholder s).1 = Placeholder.
Proof.
  destruct s as [ch k provs cur d h t]. unfold add_placeholder, state_of. simpl.
  destruct ch as [c|]; [|by destruct (truthy_str k)].
  assert (Hc : ∀ l : list chat_id, bool_decide (c ∈ filter (λ c', c' ≠ c) l) = false).
  { intros l. apply bool_decide_eq_false_2. rewrite list_elem_of_filter. by intros [? _]. }
  destruct (truthy_str k); simpl; by rewrite Hc.
Qed.

(** X15: with no credential [set_current_provider] returns normally for
    any name, registered or not: the name becomes current, nothing is
    written or constructed, and a real switch ends on the placeholder. *)
Theorem switch_without_credential (s : AI) (p : string) :
  api_key s = "" →
  (set_current_provider p s).2 = Returned
  ∧ current_provider (set_current_provider p s).1 = p
  ∧ db (set_current_provider p s).1 = db s
  ∧ heap (set_current_provider p s).1 = heap s
  ∧ api_key (set_current_provider p s).1 = ""
  ∧ (p ≠ current_provider s → state_of (set_current_provider p s).1 = Placeholder).
Proof.
  intros Hk. unfold set_current_provider.
  destruct (String.eqb_spec p (current_provider s)) as [->|Hne].
  { simpl. do 5 (split; [done|]). by intros []. }
  rewrite add_chat_no_key by (by destruct s; simpl in *; subst).
  destruct (add_placeholder_frame (set_current p s)) as (E1 & E2 & E3 & _ & _ & E6 & _).
  rewrite E1, E2, E3, E6, state_of_add_placeholder.
  by destruct s.
Qed.

Lemma switch_without_credential_witness :
  let s := (init None).1 in
  (set_current_provider "nowhere" s).2 = Returned
  ∧ current_provider (set_current_provider "nowhere" s).1 = "nowhere"
  ∧ db (set_current_provider "nowhere" s).1 = db s
  ∧ heap (set_current_provider "nowhere" s).1 = heap s
  ∧ api_key (set_current_provider "nowhere" s).1 = ""
  ∧ ("nowhere" ≠ current_provider s →
     state_of (set_current_provider "nowhere" s).1 = Placeholder).
Proof. exact (switch_without_credential (init None).1 "nowhere" eq_refl). Defined.

Lemma add_chat_unregistered (s : AI) :
  truthy_str (api_key s) = true →
  api_providers s !! current_provider s = None →
  add_chat None s =
  (let n := length (heap s) in
   mkAI (Some n) (api_key s) (api_providers s) (current_provider s)
        (Secrets.put Secrets.GEMINI_API_KEY (api_key s) (db s))
        (heap s ++ [mkChat None])
        (Construct n
           :: match chat s with
              | Some c => Destroy c :: RemoveItem (ChatItem c) :: trace s
              | None => trace s
              end),
   Raised (KeyError (current_provider s))).
Proof.
  destruct s as [ch k provs cur d h t]. simpl. intros Hk Hp.
  unfold add_chat. simpl. rewrite Hk. simpl.
  destruct ch as [c|]; simpl; rewrite Hp; ai_red; done.
Qed.

Lemma add_chat_stored_outcome (s : AI) :
  truthy_str (api_key s) = true →
  (add_chat None s).2
  = match api_providers s !! current_provider s with
    | Some _ => Returned
    | None => Raised (KeyError (current_provider s))
    end.
Proof.
  intros Hk. destruct (api_providers s !! current_provider s) as [m|] eqn:Hp.
  - by rewrite (add_chat_registered s m).
  - by rewrite add_chat_unregistered.
Qed.

(** X16: the [KeyError] of the provider lookup in [get_model_instance]
    comes out of [add_chat] exactly when a credential is at hand (given or
    stored) and the current provider is not registered; without a
    credential the lookup is never made. *)
Theorem add_chat_outcome (k : option string) (s : AI) :
  ((add_chat k s).2 = Raised (KeyError (current_provider s))
   ↔ truthy_opt k || truthy_str (api_key s) = true
     ∧ api_providers s !! current_provider s = None)
  ∧ (truthy_opt k || truthy_str (api_key s) = false →
     add_chat k s = add_placeholder s).
Proof.
  pose proof add_chat_stored_outcome as Hac.
  rewrite add_chat_unfold. destruct (truthy_opt k) eqn:Hk; simpl.
  - destruct k as [k|]; [|done]. simpl in *. rewrite Hac by (by destruct s).
    replace (api_providers (set_api_key k s)) with (api_providers s) by (by destruct s).
    replace (current_provider (set_api_key k s)) with (current_provider s)
      by (by destruct s).
    split; [|done].
    destruct (api_providers s !! current_provider s); split; try done.
    by intros [_ ?].
  - destruct (truthy_str (api_key s)) eqn:Hs.
    + rewrite Hac by done. split; [|done].
      destruct (api_providers s !! current_provider s); split; try done.
      by intros [_ ?].
    + rewrite add_chat_no_key by done. split; [|done].
      split; [|by intros [? _]].
      unfold add_placeholder. by destruct s as [[c|] ? ? ? ? ? ?]; simpl; destruct (truthy_str _).
Qed.

Lemma add_chat_outcome_witness :
  let s := (init None).1 in
  ((add_chat (Some "") s).2 = Raised (KeyError (current_provider s))
   ↔ truthy_opt (Some "") || truthy_str (api_key s) = true
     ∧ api_providers s !! current_provider s = None)
  ∧ add_chat (Some "") s = add_placeholder s.
Proof.
  destruct (add_chat_outcome (Some "") (init None).1) as [H1 H2].
  split; [exact H1 | apply H2; reflexivity].
Defined.

Lemma init_state (file : option Secrets.table) :
  ∃ s0, api_key s0 = "" ∧ chat s0 = None ∧ heap s0 = [] ∧ trace s0 = []
        ∧ db s0 = Secrets.open file
        ∧ api_providers s0 !! current_provider s0 = Some "Gemini1p5Flash"
        ∧ init file = match Secrets.get Secrets.GEMINI_API_KEY (Secrets.open file) with
                      | Some v => add_chat v s0
                      | None => add_placeholder s0
                      end.
Proof.
  eexists (mkAI None "" _ _ _ [] []). repeat split.
  cbv beta iota delta [api_providers current_provider]. apply lookup_singleton_eq.
Qed.

Lemma init_stored (file : option Secrets.table) (v : string) :
  Secrets.get Secrets.GEMINI_API_KEY (Secrets.open file) = Some (Some v) →
  truthy_str v = true →
  (init file).2 = Returned
  ∧ api_key (init file).1 = v
  ∧ state_of (init file).1 = Active 0 (Some (mkModel "Gemini1p5Flash" v))
  ∧ (AddItem PlaceholderItem ∉ trace (init file).1)
  ∧ Secrets.get Secrets.GEMINI_API_KEY (db (init file).1) = Some (Some v).
Proof.
  intros Hget Hv.
  destruct (init_state file) as ([ch k provs cur d h t] & E1 & E2 & E3 & E4 & E5 & Hp & ->).
  simpl in *. subst. rewrite Hget, add_chat_unfold. simpl. rewrite Hv.
  rewrite (add_chat_registered _ "Gemini1p5Flash") by done. ai_red.
  split; [done|]. split; [done|].
  split; [by apply (state_of_fresh v provs cur _ [])|].
  split; [|apply get_put].
  rewrite !not_elem_of_cons. repeat split; try done. apply not_elem_of_nil.
Qed.

(** X17: when the file holds a non-empty value under [GEMINI_API_KEY], the
    view starts active on the default provider with that value, without
    showing the placeholder, and the value is still what the table holds. *)
Theorem init_with_stored_credential (file : option Secrets.table) (v : string) :
  Secrets.get Secrets.GEMINI_API_KEY (Secrets.open file) = Some (Some v) →
  v ≠ "" →
  (init file).2 = Returned
  ∧ api_key (init file).1 = v
  ∧ state_of (init file).1 = Active 0 (Some (mkModel "Gemini1p5Flash" v))
  ∧ (AddItem PlaceholderItem ∉ trace (init file).1)
  ∧ Secrets.get Secrets.GEMINI_API_KEY (db (init file).1) = Some (Some v).
Proof.
  intros Hget Hv. apply truthy_str_true in Hv.
  destruct (init_stored file v Hget Hv) as (H1 & H2 & H3 & H4 & H5).
  split; [exact H1|]. split; [exact H2|]. split; [exact H3|].
  split; [exact H4 | exact H5].
Qed.

Lemma init_with_stored_credential_witness :
  let file := Some [(Secrets.GEMINI_API_KEY, Some "k")] in
  (init file).2 = Returned
  ∧ api_key (init file).1 = "k"
  ∧ state_of (init file).1 = Active 0 (Some (mkModel "Gemini1p5Flash" "k"))
  ∧ (AddItem PlaceholderItem ∉ trace (init file).1)
  ∧ Secrets.get Secrets.GEMINI_API_KEY (db (init file).1) = Some (Some "k").
Proof.
  apply (init_with_stored_credential (Some [(Secrets.GEMINI_API_KEY, Some "k")]) "k").
  - reflexivity.
  - discriminate.
Defined.

(** X18: when the file has no table, no row, a NULL or an empty value
    under [GEMINI_API_KEY], the view starts on the placeholder with no chat,
    and the database is left as opened. *)
Theorem init_without_credential (file : option Secrets.table) :
  (∀ v, Secrets.get Secrets.GEMINI_API_KEY (Secrets.open file) = Some (Some v) → v = "") →
  init file
  = (mkAI None "" {[ "Gemini 1.5 Flash" := "Gemini1p5Flash" ]} "Gemini 1.5 Flash"
          (Secrets.open file) [] [AddItem PlaceholderItem],
     Returned)
  ∧ state_of (init file).1 = Placeholder.
Proof.
  intros Hnone.
  assert (E : init file
              = (mkAI None "" {[ "Gemini 1.5 Flash" := "Gemini1p5Flash" ]} "Gemini 1.5 Flash"
                      (Secrets.open file) [] [AddItem PlaceholderItem], Returned)).
  { unfold init. destruct (Secrets.get _ _) as [[v|]|]; try done.
    by rewrite (Hnone v eq_refl). }
  by rewrite E.
Qed.

Lemma init_without_credential_witness :
  let file := Some [(Secrets.GEMINI_API_KEY, Some "")] in
  init file
  = (mkAI None "" {[ "Gemini 1.5 Flash" := "Gemini1p5Flash" ]} "Gemini 1.5 Flash"
          (Secrets.open file) [] [AddItem PlaceholderItem],
     Returned)
  ∧ state_of (init file).1 = Placeholder.
Proof.
  apply (init_without_credential (Some [(Secrets.GEMINI_API_KEY, Some "")])).
  intros v Hv. vm_compute in Hv. congruence.
Defined.

(** X19: after [add_chat] with a non-empty credential, in whatever state
    and whether or not the call raised, a view started on the committed
    table is active with that credential and shows no placeholder. *)
Theorem credential_survives_restart (s : AI) (k : string) :
  k ≠ "" →
  let file := Some (Secrets.durable (db (add_chat (Some k) s).1)) in
  (init file).2 = Returned
  ∧ api_key (init file).1 = k
  ∧ state_of (init file).1 = Active 0 (Some (mkModel "Gemini1p5Flash" k))
  ∧ (AddItem PlaceholderItem ∉ trace (init file).1).
Proof.
  intros Hk file.
  assert (Hget : Secrets.get Secrets.GEMINI_API_KEY (Secrets.open file) = Some (Some k)).
  { subst file. rewrite add_chat_unfold. simpl.
    pose proof Hk as Ht. apply truthy_str_true in Ht. rewrite Ht.
    destruct (add_chat_stored_frame (set_api_key k s)) as (_ & E & _); [by destruct s|].
    rewrite E. replace (api_key (set_api_key k s)) with k by (by destruct s).
    unfold Secrets.get, Secrets.put. simpl. by rewrite select_insert_or_replace. }
  apply truthy_str_true in Hk.
  destruct (init_stored file k Hget Hk) as (? & ? & ? & ? & _). done.
Qed.

Lemma credential_survives_restart_witness :
  let file := Some (Secrets.durable (db (add_chat (Some "k") (init None).1).1)) in
  (init file).2 = Returned
  ∧ api_key (init file).1 = "k"
  ∧ state_of (init file).1 = Active 0 (Some (mkModel "Gemini1p5Flash" "k"))
  ∧ (AddItem PlaceholderItem ∉ trace (init file).1).
Proof.
  apply (credential_survives_restart (init None).1 "k"). discriminate.
Defined.

(** X20: with a credential at hand, switching to a name that is not
    registered raises [KeyError] on it after the old chat was destroyed and
    a new one constructed: the name is current, the new chat has no model,
    the credential is stored, and [add_chat] keeps raising until the name is
    registered. *)
Theorem switch_to_unregistered_provider (s : AI) (p : string) :
  reachable s → api_key s ≠ "" →
  p ≠ current_provider s → api_providers s !! p = None →
  let r := set_current_provider p s in
  r.2 = Raised (KeyError p)
  ∧ current_provider r.1 = p
  ∧ state_of r.1 = Active (length (heap s)) None
  ∧ Secrets.get Secrets.GEMINI_API_KEY (db r.1) = Some (Some (api_key s))
  ∧ (∀ c, chat s = Some c →
          destroyed_times c (trace r.1) = S (destroyed_times c (trace s)))
  ∧ (add_chat None r.1).2 = Raised (KeyError p)
  ∧ (∀ m, (add_chat None (register_provider p m r.1).1).2 = Returned).
Proof.
  intros Hr Hk Hne Hp r.
  pose proof (reachable_inv s Hr) as (Hlive & _ & _).
  apply truthy_str_true in Hk.
  destruct s as [ch k provs cur d h t].
  cbv beta iota delta [api_providers current_provider heap api_key chat trace] in *.
  assert (E : r = add_chat None (set_current p (mkAI ch k provs cur d h t))).
  { subst r. unfold set_current_provider.
    cbv beta iota delta [current_provider].
    by destruct (String.eqb_spec p cur). }
  rewrite add_chat_unregistered in E by done. revert E. ai_red. intros E.
  assert (H6 : (add_chat None r.1).2 = Raised (KeyError p)).
  { rewrite E, add_chat_stored_outcome by done.
    cbv beta iota delta [fst api_providers current_provider].
    by rewrite Hp. }
  assert (H7 : ∀ m, (add_chat None (register_provider p m r.1).1).2 = Returned).
  { intros m. rewrite E, add_chat_stored_outcome by done. unfold register_provider.
    cbv beta iota delta [fst emit set_api_providers api_providers current_provider].
    by rewrite lookup_insert_eq. }
  clearbody r. subst r. revert H6 H7. ai_red. intros H6 H7.
  split; [done|]. split; [done|]. split.
  { unfold state_of. cbv beta iota delta [chat trace heap].
    assert (L : live_after (Construct (length h)
                  :: match ch with
                     | Some c => Destroy c :: RemoveItem (ChatItem c) :: t
                     | None => t
                     end) = [length h]).
    { destruct ch as [c|]; simpl.
      - by rewrite (filter_ne_live c).
      - by destruct Hlive as [->|(? & _ & [=])]. }
    by rewrite L, live_singleton, lookup_snoc. }
  split; [apply get_put|]. split.
  { intros c ->. simpl. by rewrite bool_decide_eq_true_2. }
  split; [exact H6 | exact H7].
Qed.

Lemma switch_to_unregistered_provider_witness :
  let s := (init (Some [(Secrets.GEMINI_API_KEY, Some "k")])).1 in
  let r := set_current_provider "nowhere" s in
  r.2 = Raised (KeyError "nowhere")
  ∧ current_provider r.1 = "nowhere"
  ∧ state_of r.1 = Active (length (heap s)) None
  ∧ Secrets.get Secrets.GEMINI_API_KEY (db r.1) = Some (Some (api_key s))
  ∧ (∀ c, chat s = Some c →
          destroyed_times c (trace r.1) = S (destroyed_times c (trace s)))
  ∧ (add_chat None r.1).2 = Raised (KeyError "nowhere")
  ∧ (∀ m, (add_chat None (register_provider "nowhere" m r.1).1).2 = Returned).
Proof.
  apply (switch_to_unregistered_provider
           (init (Some [(Secrets.GEMINI_API_KEY, Some "k")])).1 "nowhere").
  - apply reach_init.
  - discriminate.
  - discriminate.
  - vm_compute. reflexivity.
Defined.

(** X21: [add_placeholder] destroys the chat but keeps [self.chat]: the
    view is on the placeholder with no chat alive, yet [attach_file] and
    [new_chat] still call the destroyed chat, and the next [add_chat]
    destroys it a second time before constructing a new one. *)
Theorem placeholder_keeps_destroyed_chat (s : AI) (c : chat_id) (fs : list string) :
  reachable s → chat s = Some c →
  let s1 := (add_placeholder s).1 in
  state_of s1 = Placeholder
  ∧ chat s1 = Some c
  ∧ live_after (trace s1) = []
  ∧ destroyed_times c (trace s1) = S (destroyed_times c (trace s))
  ∧ attach_file fs s1 = (emit (AttachFile c fs) s1, Returned)
  ∧ new_chat ResetReturns s1 = (emit (Reset c) s1, Returned)
  ∧ destroyed_times c (trace (add_chat None s1).1) = S (S (destroyed_times c (trace s)))
  ∧ chat (add_chat None s1).1 = Some (length (heap s)).
Proof.
  intros Hr Hc s1.
  pose proof (reachable_inv s Hr) as (Hlive & _ & Hchat).
  destruct (Hchat c Hc) as [Hk _]. apply truthy_str_true in Hk.
  split; [apply state_of_add_placeholder|].
  destruct s as [ch k provs cur d h t]. simpl in *. subst ch.
  subst s1. unfold add_placeholder. simpl. rewrite Hk. simpl.
  rewrite (filter_ne_live c) by done.
  rewrite bool_decide_eq_true_2 by done.
  split; [done|]. split; [done|]. split; [done|].
  split; [done|]. split; [done|].
  unfold add_chat. simpl. rewrite Hk. simpl.
  destruct (provs !! cur); simpl; by rewrite bool_decide_eq_true_2.
Qed.

Lemma placeholder_keeps_destroyed_chat_witness :
  let s := (init (Some [(Secrets.GEMINI_API_KEY, Some "k")])).1 in
  let s1 := (add_placeholder s).1 in
  state_of s1 = Placeholder
  ∧ chat s1 = Some 0
  ∧ live_after (trace s1) = []
  ∧ destroyed_times 0 (trace s1) = S (destroyed_times 0 (trace s))
  ∧ attach_file ["a.py"] s1 = (emit (AttachFile 0 ["a.py"]) s1, Returned)
  ∧ new_chat ResetReturns s1 = (emit (Reset 0) s1, Returned)
  ∧ destroyed_times 0 (trace (add_chat None s1).1) = S (S (destroyed_times 0 (trace s)))
  ∧ chat (add_chat None s1).1 = Some (length (heap s)).
Proof.
  exact (placeholder_keeps_destroyed_chat
           (init (Some [(Secrets.GEMINI_API_KEY, Some "k")])).1 0 ["a.py"]
           (reach_init _) eq_refl).
Defined.

(** X22: [register_provider] makes the name resolve to the new class and
    leaves every other name, the chat, the credential and the database
    alone; registering a name again replaces its class and adds a second
    dropdown entry. *)
Theorem register_provider_overwrites (s : AI) (p m m' : string) :
  let s1 := (register_provider p m s).1 in
  (∀ q, api_providers s1 !! q = if decide (p = q) then Some m else api_providers s !! q)
  ∧ state_of s1 = state_of s
  ∧ chat s1 = chat s ∧ api_key s1 = api_key s ∧ db s1 = db s
  ∧ current_provider s1 = current_provider s
  ∧ api_providers (register_provider p m' s1).1 = api_providers (register_provider p m' s).1
  ∧ trace (register_provider p m' s1).1 = DropdownAdd p :: DropdownAdd p :: trace s.
Proof.
  destruct s as [ch k provs cur d h t]. unfold register_provider. ai_red.
  split; [intros q; apply lookup_insert|].
  split; [done|]. do 4 (split; [done|]).
  split; [apply insert_insert_eq | done].
Qed.
